(** * ThreadPool.h: a fixed-size worker-thread pool

    A shallow embedding of [nbsdx::concurrent::ThreadPool<ThreadCount>]
    (src/ThreadPool.h) as a labelled transition system.

    Every thread of the program is a small program counter; one transition
    is one critical section or one access to an atomic variable:

    - everything the source does to [queue] happens while [queue_mutex] is
      held, so a block that locks and unlocks [queue_mutex] is one
      transition ([queue_mutex] is therefore never seen locked between two
      transitions and has no field of its own);
    - [job_available_mutex] is held by a worker across transitions (from
      line 68 to line 91, released inside [wait]), so it is a field;
    - [jobs_left], [bailout] and [finished] are atomics: each read or
      update is part of exactly one transition.

    [AddJob], [JobsRemaining] and [Size] may be called by any thread at any
    time.  The blocking calls [WaitAll] and [JoinAll] are issued by one
    controlling thread, whose program counter is the field [caller].

    Condition variables: a thread blocked in [wait] goes on when it is
    notified, and may go on without a notification (a spurious wakeup); a
    notification that finds no blocked thread is lost.  The source notifies
    without holding the mutex of the condition variable, so a worker that
    has found its predicate false may miss a notification before it blocks:
    the place [Parking] is that window.

    A transition that cannot be taken yet (a lock is held, a predicate is
    false, the thread to join has not ended) is [Wait]; undefined behaviour
    is [Fault]. *)

From stdpp Require Import base tactics option list.
From Stdlib Require Import ZArith Lia.

(** ** Machine integers *)

Module AtomicInt.

(** [std::atomic_int]: 32 bits, two's complement, arithmetic wraps. *)
Definition INT_MAX : Z := 2147483647.
Definition INT_MIN : Z := -2147483648.

Definition wrap (z : Z) : Z := ((z + 2147483648) mod 4294967296 - 2147483648)%Z.

(** [++x] and [--x] on the atomic. *)
Definition incr (z : Z) : Z := wrap (z + 1).
Definition decr (z : Z) : Z := wrap (z - 1).

Definition in_range (z : Z) : Prop := (INT_MIN <= z <= INT_MAX)%Z.

(** Conversion of a [size_t] to [unsigned]. *)
Definition to_unsigned (z : Z) : Z := (z mod 4294967296)%Z.

End AtomicInt.

(** ** Data *)

(** [typedef std::function<void(void)> Job].  A job submitted by a caller is
    opaque and named by an identifier; [NoOp] is the lambda that [next_job]
    builds at line 86. *)
Inductive Job : Type :=
| UserJob (id : nat)
| NoOp.

Global Instance Job_eq_dec : EqDecision Job.
Proof. solve_decision. Defined.

(** Where a worker thread is in [Task] / [next_job]. *)
Inductive Worker : Type :=
| AtGuard            (* line 55: about to test [!bailout] *)
| Entering           (* line 68: acquiring [job_available_mutex] *)
| Fetching           (* lines 69-72: owns [job_lock], about to look at the queue *)
| CheckPred          (* line 78: owns [job_lock], evaluating the wait predicate *)
| Parking            (* line 78: the predicate was false, about to block *)
| Blocked            (* line 78: blocked in [wait], [job_lock] released *)
| Notified           (* line 78: unblocked, re-acquiring [job_lock] *)
| Woken              (* lines 80-81: [wait] returned, owns [job_lock] *)
| Running (j : Job)  (* line 56: [next_job] returned [j], the job is executing *)
| Exited             (* [Task] returned; the thread is still joinable *)
| Joined.            (* the thread was joined *)

Global Instance Worker_eq_dec : EqDecision Worker.
Proof. solve_decision. Defined.

(** Where the controlling thread is in [WaitAll] / [JoinAll]. *)
Inductive Caller : Type :=
| Idle                           (* outside of [WaitAll] and [JoinAll] *)
| InWaitAll (from_join : bool)   (* line 176: inside [wait_var.wait] *)
| RaiseBailout                   (* line 158 *)
| NotifyWorkers                  (* line 159 *)
| Joining (k : nat).             (* lines 161-164: loop over [threads], at index k *)

Global Instance Caller_eq_dec : EqDecision Caller.
Proof. solve_decision. Defined.

(** The fields of the class.  [wait_var], [wait_mutex] and
    [job_available_var] carry no data: the threads waiting on
    [job_available_var] are the workers at [Blocked], the thread waiting on
    [wait_var] is the caller at [InWaitAll]. *)
Record Pool : Type := mkPool {
  threads : list Worker;
  queue : list Job;
  jobs_left : Z;
  bailout : bool;
  finished : bool;
  job_available_mutex : option nat;
  caller : Caller;
}.

Definition set_threads (ws : list Worker) (s : Pool) : Pool :=
  mkPool ws (queue s) (jobs_left s) (bailout s) (finished s)
         (job_available_mutex s) (caller s).
Definition set_queue (q : list Job) (s : Pool) : Pool :=
  mkPool (threads s) q (jobs_left s) (bailout s) (finished s)
         (job_available_mutex s) (caller s).
Definition set_jobs_left (n : Z) (s : Pool) : Pool :=
  mkPool (threads s) (queue s) n (bailout s) (finished s)
         (job_available_mutex s) (caller s).
Definition set_bailout (b : bool) (s : Pool) : Pool :=
  mkPool (threads s) (queue s) (jobs_left s) b (finished s)
         (job_available_mutex s) (caller s).
Definition set_finished (b : bool) (s : Pool) : Pool :=
  mkPool (threads s) (queue s) (jobs_left s) (bailout s) b
         (job_available_mutex s) (caller s).
Definition set_mutex (m : option nat) (s : Pool) : Pool :=
  mkPool (threads s) (queue s) (jobs_left s) (bailout s) (finished s)
         m (caller s).
Definition set_caller (c : Caller) (s : Pool) : Pool :=
  mkPool (threads s) (queue s) (jobs_left s) (bailout s) (finished s)
         (job_available_mutex s) c.
Definition set_worker (i : nat) (w : Worker) (s : Pool) : Pool :=
  set_threads (<[i:=w]> (threads s)) s.

(** What a transition lets an observer see. *)
Inductive Event : Type :=
| EvSubmitted (j : Job)            (* [AddJob]: the job entered the queue *)
| EvDequeued (i : nat) (j : Job)   (* [next_job]: worker i popped j *)
| EvInjected (i : nat)             (* [next_job]: worker i built the no-op *)
| EvCompleted (i : nat) (j : Job)  (* [Task]: j returned, [--jobs_left] *)
| EvDrained                        (* [WaitAll] returned *)
| EvBailout                        (* [bailout = true] *)
| EvBroadcast                      (* [job_available_var.notify_all()] *)
| EvJoined (k : nat)               (* [threads[k].join()] returned *)
| EvFinished.                      (* [finished = true] *)

Global Instance Event_eq_dec : EqDecision Event.
Proof. solve_decision. Defined.

(** The result of asking a thread to move. *)
Inductive Outcome : Type :=
| Step (s : Pool) (evs : list Event)  (* the transition and what it shows *)
| Wait                                (* the thread is blocked, or has ended *)
| Fault.                              (* undefined behaviour *)

(** ** Construction and the two observers *)

(** Lines 97-104: the counter is 0, both flags are false, and every thread
    starts [Task]. *)
Definition ThreadPool (ThreadCount : nat) : Pool :=
  {| threads := replicate ThreadCount AtGuard;
     queue := [];
     jobs_left := 0;
     bailout := false;
     finished := false;
     job_available_mutex := None;
     caller := Idle |}.

(** Lines 116-118. *)
Definition Size (ThreadCount : nat) : Z := Z.of_nat ThreadCount.

(** Lines 123-126: [queue.size()], returned as [unsigned]. *)
Definition JobsRemaining (s : Pool) : Z :=
  AtomicInt.to_unsigned (Z.of_nat (length (queue s))).

(** ** Condition variable [job_available_var] *)

Definition is_blocked (w : Worker) : bool :=
  match w with Blocked => true | _ => false end.

Fixpoint first_blocked (ws : list Worker) : option nat :=
  match ws with
  | [] => None
  | w :: ws' => if is_blocked w then Some 0 else S <$> first_blocked ws'
  end.

(** [notify_one]: one of the threads blocked in [wait] is unblocked, if
    there is any.  Which one is up to the scheduler: [pick] is its choice,
    honoured when worker [pick] is blocked. *)
Definition notify_one (pick : nat) (ws : list Worker) : list Worker :=
  match ws !! pick with
  | Some Blocked => <[pick:=Notified]> ws
  | _ => match first_blocked ws with
         | Some k => <[k:=Notified]> ws
         | None => ws
         end
  end.

(** [notify_all]: every thread blocked in [wait] is unblocked. *)
Definition notify_all (ws : list Worker) : list Worker :=
  (fun w => if is_blocked w then Notified else w) <$> ws.

(** ** Submission *)

(** Lines 133-138.  The whole body runs under [queue_mutex]. *)
Definition AddJob (job : Job) (pick : nat) (s : Pool) : Pool :=
  set_threads (notify_one pick (threads s))
    (set_jobs_left (AtomicInt.incr (jobs_left s))
       (set_queue (queue s ++ [job]) s)).

(** ** The worker: [Task] and [next_job] *)

(** Lines 66-94, one transition at a time, for worker [i] at [w]. *)
Definition next_job (i : nat) (w : Worker) (s : Pool) : Outcome :=
  match w with
  | Entering =>
      (* line 68 *)
      match job_available_mutex s with
      | None => Step (set_mutex (Some i) (set_worker i Fetching s)) []
      | Some _ => Wait
      end
  | Fetching =>
      (* lines 69-77 *)
      match queue s with
      | j :: q =>
          Step (set_mutex None (set_queue q (set_worker i (Running j) s)))
               [EvDequeued i j]
      | [] => Step (set_worker i CheckPred s) []
      end
  | CheckPred =>
      (* line 78: [JobsRemaining() || bailout] *)
      if negb (JobsRemaining s =? 0)%Z || bailout s
      then Step (set_worker i Woken s) []
      else Step (set_worker i Parking s) []
  | Parking =>
      (* line 78: [wait] releases the lock and blocks, in one step *)
      Step (set_mutex None (set_worker i Blocked s)) []
  | Blocked => Wait
  | Notified =>
      (* line 78: [wait] takes the lock again before it tests the predicate *)
      match job_available_mutex s with
      | None => Step (set_mutex (Some i) (set_worker i CheckPred s)) []
      | Some _ => Wait
      end
  | Woken =>
      (* lines 80-91 *)
      if negb (bailout s) then
        match queue s with
        | j :: q =>
            Step (set_mutex None (set_queue q (set_worker i (Running j) s)))
                 [EvDequeued i j]
        | [] => Fault  (* [front()] of an empty list *)
        end
      else
        Step (set_mutex None
                (set_jobs_left (AtomicInt.incr (jobs_left s))
                   (set_worker i (Running NoOp) s)))
             [EvInjected i]
  | _ => Wait
  end.

(** Lines 54-60, one transition at a time, for worker [i]. *)
Definition Task (i : nat) (s : Pool) : Outcome :=
  match threads s !! i with
  | None => Wait
  | Some w =>
    match w with
    | AtGuard =>
        (* line 55 *)
        if bailout s then Step (set_worker i Exited s) []
        else Step (set_worker i Entering s) []
    | Running j =>
        (* lines 56-58: the job returns, then [--jobs_left]; the caller at
           [InWaitAll] tests its predicate whether or not line 58 wakes it *)
        Step (set_jobs_left (AtomicInt.decr (jobs_left s))
                (set_worker i AtGuard s))
             [EvCompleted i j]
    | Exited => Wait
    | Joined => Wait
    | _ => next_job i w s
    end
  end.

(** A thread blocked in [wait] may be unblocked without a notification. *)
Definition spurious_wakeup (i : nat) (s : Pool) : Outcome :=
  match threads s !! i with
  | Some Blocked => Step (set_worker i Notified s) []
  | _ => Wait
  end.

(** ** The controlling thread: [WaitAll] and [JoinAll] *)

(** Lines 173-179, up to the point where the call returns or blocks.
    [k] is where the caller goes once the wait is over. *)
Definition WaitAll (from_join : bool) (k : Caller) (s : Pool) : Outcome :=
  if (0 <? jobs_left s)%Z then Step (set_caller (InWaitAll from_join) s) []
  else Step (set_caller k s) [EvDrained].

(** Lines 150-157. *)
Definition JoinAll (WaitForAll : bool) (s : Pool) : Outcome :=
  if negb (finished s) then
    if WaitForAll then WaitAll true RaiseBailout s
    else Step (set_caller RaiseBailout s) []
  else Step s [].

(** The controlling thread starts a call only when it is in none. *)
Definition call (f : Pool -> Outcome) (s : Pool) : Outcome :=
  match caller s with
  | Idle => f s
  | _ => Wait
  end.

(** The rest of a call that did not return at once. *)
Definition caller_step (s : Pool) : Outcome :=
  match caller s with
  | Idle => Wait
  | InWaitAll from_join =>
      (* line 176: the predicate [jobs_left == 0] *)
      if (jobs_left s =? 0)%Z
      then Step (set_caller (if from_join then RaiseBailout else Idle) s)
                [EvDrained]
      else Wait
  | RaiseBailout =>
      (* line 158 *)
      Step (set_caller NotifyWorkers (set_bailout true s)) [EvBailout]
  | NotifyWorkers =>
      (* line 159 *)
      Step (set_caller (Joining 0) (set_threads (notify_all (threads s)) s))
           [EvBroadcast]
  | Joining k =>
      (* lines 161-164 *)
      match threads s !! k with
      | Some Exited =>
          Step (set_caller (Joining (S k)) (set_worker k Joined s)) [EvJoined k]
      | Some Joined => Step (set_caller (Joining (S k)) s) []
      | Some _ => Wait  (* [join] blocks until [Task] has returned *)
      | None => Step (set_caller Idle (set_finished true s)) [EvFinished]
      end
  end.

(** ** The transition system *)

Inductive Label : Type :=
| LAddJob (job : Job) (pick : nat)  (* some thread calls [AddJob(job)] *)
| LWork (i : nat)                   (* worker i moves *)
| LSpurious (i : nat)               (* worker i wakes up spuriously *)
| LWaitAll                          (* the controlling thread calls [WaitAll()] *)
| LJoinAll (WaitForAll : bool)      (* ... calls [JoinAll(WaitForAll)] *)
| LCaller.                          (* ... moves on inside its call *)

Definition step (l : Label) (s : Pool) : Outcome :=
  match l with
  | LAddJob job pick => Step (AddJob job pick s) [EvSubmitted job]
  | LWork i => Task i s
  | LSpurious i => spurious_wakeup i s
  | LWaitAll => call (WaitAll false Idle) s
  | LJoinAll b => call (JoinAll b) s
  | LCaller => caller_step s
  end.

(** Run a schedule; the events are collected in order. *)
Fixpoint exec (ls : list Label) (s : Pool) (evs : list Event)
  : option (Pool * list Event) :=
  match ls with
  | [] => Some (s, evs)
  | l :: ls' =>
      match step l s with
      | Step s' e => exec ls' s' (evs ++ e)
      | Wait => None
      | Fault => None
      end
  end.

(** A run of a pool of [ThreadCount] workers from its construction. *)
Definition run (ThreadCount : nat) (ls : list Label) : option (Pool * list Event) :=
  exec ls (ThreadPool ThreadCount) [].

(** The same, as a relation: [Execution s0 ls s evs] when the schedule [ls]
    leads from [s0] to [s] and shows [evs]. *)
Inductive Execution (s0 : Pool) : list Label -> Pool -> list Event -> Prop :=
| execution_nil : Execution s0 [] s0 []
| execution_snoc ls s evs l s' e :
    Execution s0 ls s evs ->
    step l s = Step s' e ->
    Execution s0 (ls ++ [l]) s' (evs ++ e).

(** * Vocabulary of the properties *)

(** ** Jobs in flight *)

Definition is_running (w : Worker) : bool :=
  match w with Running _ => true | _ => false end.

(** The workers that own [job_available_mutex]. *)
Definition holds_lock (w : Worker) : bool :=
  match w with Fetching | CheckPred | Parking | Woken => true | _ => false end.

(** How many workers hold a dequeued (or synthetic) job whose decrement
    is still to come. *)
Definition executing (ws : list Worker) : nat :=
  length (filter (fun w => is_running w = true) ws).

(** Jobs that were submitted (or injected) and have not completed. *)
Definition outstanding (s : Pool) : nat :=
  length (queue s) + executing (threads s).

(** [ws'] is [ws] with some blocked threads unblocked. *)
Definition woke (ws ws' : list Worker) : Prop :=
  Forall2 (fun w w' => w' = w \/ (w = Blocked /\ w' = Notified)) ws ws'.

(** ** The invariant of the pool *)

Record Inv (ThreadCount : nat) (s : Pool) : Prop := mkInv {
  (* the array of threads keeps its size *)
  inv_threads : length (threads s) = ThreadCount;
  (* the counter is the number of outstanding jobs, as an [int] *)
  inv_counter : jobs_left s = AtomicInt.wrap (Z.of_nat (outstanding s));
  (* [job_available_mutex] is owned by the worker between lines 68 and 91 *)
  inv_owner : forall i, job_available_mutex s = Some i <->
                exists w, threads s !! i = Some w /\ holds_lock w = true;
  (* line 82 finds a job *)
  inv_woken : forall i, threads s !! i = Some Woken ->
                bailout s = true \/ queue s <> [];
}.

(** ** Histories *)

(** The jobs that entered the queue, in the order of the calls to [AddJob]. *)
Definition submitted (evs : list Event) : list Job :=
  omap (fun e => match e with EvSubmitted j => Some j | _ => None end) evs.

(** The jobs that left the queue, in the order in which they were popped. *)
Definition dequeued (evs : list Event) : list Job :=
  omap (fun e => match e with EvDequeued _ j => Some j | _ => None end) evs.

(** The synthetic jobs of line 86. *)
Definition injected (evs : list Event) : list Job :=
  omap (fun e => match e with EvInjected _ => Some NoOp | _ => None end) evs.

(** The jobs that ran to their end. *)
Definition completed (evs : list Event) : list Job :=
  omap (fun e => match e with EvCompleted _ j => Some j | _ => None end) evs.

(** The jobs that are executing. *)
Definition job_of (w : Worker) : option Job :=
  match w with Running j => Some j | _ => None end.
Definition running (ws : list Worker) : list Job := omap job_of ws.

(** What the controlling thread did. *)
Definition is_caller_event (e : Event) : bool :=
  match e with
  | EvDrained | EvBailout | EvBroadcast | EvJoined _ | EvFinished => true
  | _ => false
  end.
Definition caller_events (evs : list Event) : list Event :=
  filter (fun e => is_caller_event e = true) evs.

(** Schedules in which the controlling thread starts no new call. *)
Definition is_call (l : Label) : bool :=
  match l with LWaitAll | LJoinAll _ => true | _ => false end.
Definition no_calls (ls : list Label) : bool :=
  forallb (fun l => negb (is_call l)) ls.


(** The history of a run agrees with the state it led to. *)
Record Hist (s : Pool) (evs : list Event) : Prop := mkHist {
  (* the queue is what was submitted and not yet popped, in order *)
  hist_fifo : submitted evs = dequeued evs ++ queue s;
  (* a job handed to a worker has completed or is executing *)
  hist_jobs : dequeued evs ++ injected evs ≡ₚ completed evs ++ running (threads s);
}.

(** ** The shutdown protocol *)

(** Exactly the threads below index [k] were joined. *)
Definition joined_below (k : nat) (ws : list Worker) : Prop :=
  forall i, i < length ws -> (ws !! i = Some Joined <-> i < k).

(** Has line 158 been executed? *)
Definition flag_raised (s : Pool) : bool :=
  match caller s with
  | Idle | InWaitAll false => finished s
  | InWaitAll true | RaiseBailout => false
  | NotifyWorkers | Joining _ => true
  end.

(** How far has the loop of lines 161-163 come? *)
Definition joined_count (s : Pool) : nat :=
  match caller s with
  | Idle | InWaitAll false => if finished s then length (threads s) else 0
  | InWaitAll true | RaiseBailout | NotifyWorkers => 0
  | Joining k => k
  end.

(** The flags and the joined threads follow the controlling thread. *)
Record CallInv (s : Pool) : Prop := mkCallInv {
  call_bailout : bailout s = flag_raised s;
  call_joined : joined_below (joined_count s) (threads s);
  call_index : joined_count s <= length (threads s);
  call_finished :
    finished s = true -> caller s = Idle \/ caller s = InWaitAll false;
}.


(** When a call to [JoinAll] has been made, the controlling thread is back
    at [Idle] only once the pool is finalized. *)
Definition returns_finalized (s : Pool) : Prop :=
  (caller s = Idle -> finished s = true) /\ caller s <> InWaitAll false.

(** ** Example schedules *)

(** One worker; two jobs are submitted; the worker takes the first one. *)
Definition sched_busy : list Label :=
  [LAddJob (UserJob 1) 0; LAddJob (UserJob 2) 0; LWork 0; LWork 0; LWork 0].

(** ... then [JoinAll(false)] is called and runs to its end while the
    first job completes. *)
Definition sched_drop : list Label :=
  sched_busy ++
  [LJoinAll false; LCaller; LCaller; LWork 0; LWork 0; LCaller; LCaller].

(** One worker has passed line 55 when [JoinAll(false)] raises the flag;
    the job is in the queue all the while. *)
Definition sched_late : list Label :=
  [LAddJob (UserJob 1) 0; LWork 0; LJoinAll false; LCaller; LCaller;
   LWork 0; LWork 0; LWork 0; LWork 0; LCaller; LCaller].

(** After [sched_idle], [JoinAll(true)] is called and runs to its end along
    this schedule. *)
Definition sched_join : list Label :=
  [LCaller; LCaller; LWork 0; LWork 0; LWork 0; LWork 0; LWork 0;
   LCaller; LCaller].

(** One worker goes to sleep on the empty queue. *)
Definition sched_idle : list Label :=
  [LWork 0; LWork 0; LWork 0; LWork 0; LWork 0].

(** The worker finds the queue empty and its predicate false; a job is
    submitted before the worker blocks. *)
Definition sched_missed : list Label :=
  [LWork 0; LWork 0; LWork 0; LWork 0; LAddJob (UserJob 1) 0; LWork 0].

(** A worker whose [wait] has just returned because of the shutdown. *)
Definition pool_woken : Pool :=
  {| threads := [Woken; Running (UserJob 7)];
     queue := [];
     jobs_left := 1;
     bailout := true;
     finished := false;
     job_available_mutex := Some 0;
     caller := Joining 0 |}.


(** A pool after [JoinAll] has returned. *)
Definition pool_finalized : Pool :=
  {| threads := [Joined; Joined];
     queue := [];
     jobs_left := 0;
     bailout := true;
     finished := true;
     job_available_mutex := None;
     caller := Idle |}.

(** Where [sched_busy] and [sched_drop] lead a pool of one worker. *)
Definition pool_busy : Pool :=
  {| threads := [Running (UserJob 1)];
     queue := [UserJob 2];
     jobs_left := 2;
     bailout := false;
     finished := false;
     job_available_mutex := None;
     caller := Idle |}.

Definition events_busy : list Event :=
  [EvSubmitted (UserJob 1); EvSubmitted (UserJob 2); EvDequeued 0 (UserJob 1)].

Definition pool_dropped : Pool :=
  {| threads := [Joined];
     queue := [UserJob 2];
     jobs_left := 1;
     bailout := true;
     finished := true;
     job_available_mutex := None;
     caller := Idle |}.

Definition events_dropped : list Event :=
  events_busy ++
  [EvBailout; EvBroadcast; EvCompleted 0 (UserJob 1); EvJoined 0; EvFinished].

(** Where [sched_idle], and then [JoinAll(true)] with [sched_join], lead
    a pool of one worker. *)
Definition pool_idle : Pool :=
  {| threads := [Blocked];
     queue := [];
     jobs_left := 0;
     bailout := false;
     finished := false;
     job_available_mutex := None;
     caller := Idle |}.

Definition pool_joined : Pool :=
  {| threads := [Joined];
     queue := [];
     jobs_left := 0;
     bailout := true;
     finished := true;
     job_available_mutex := None;
     caller := Idle |}.

Definition events_join : list Event :=
  [EvDrained; EvBailout; EvBroadcast; EvInjected 0; EvCompleted 0 NoOp;
   EvJoined 0; EvFinished].

(** * Vocabulary of the further properties *)

(** ** Destruction *)

(** Lines 109-111: [~ThreadPool()] is [JoinAll()], with the default
    argument [WaitForAll = true]. *)
Definition destructor (s : Pool) : Outcome := JoinAll true s.

(** ** More about schedules and histories *)

(** Schedules in which no job is submitted. *)
Definition is_submission (l : Label) : bool :=
  match l with LAddJob _ _ => true | _ => false end.
Definition no_submissions (ls : list Label) : bool :=
  forallb (fun l => negb (is_submission l)) ls.

(** The jobs that [next_job] returned, real or synthetic, in order. *)
Definition handed (evs : list Event) : list Job :=
  omap (fun e => match e with
                 | EvDequeued _ j => Some j
                 | EvInjected _ => Some NoOp
                 | _ => None
                 end) evs.

(** A worker that has ended. *)
Definition has_ended (w : Worker) : bool :=
  match w with Exited | Joined => true | _ => false end.

(** A worker that will not enter [next_job] again: the flag is up and the
    worker is past line 91. *)
Definition is_spent (w : Worker) : bool :=
  match w with Running _ | AtGuard | Exited | Joined => true | _ => false end.
Definition spent (s : Pool) : nat :=
  if bailout s then length (filter (fun w => is_spent w = true) (threads s))
  else 0.


(** ** More example schedules *)

(** The worker takes the lock and finds the queue empty. *)
Definition sched_fetching : list Label := [LWork 0; LWork 0].

Definition pool_fetching : Pool :=
  {| threads := [Fetching];
     queue := [];
     jobs_left := 0;
     bailout := false;
     finished := false;
     job_available_mutex := Some 0;
     caller := Idle |}.

(** The worker has found its predicate false and has not blocked yet. *)
Definition sched_parking : list Label := [LWork 0; LWork 0; LWork 0; LWork 0].

Definition pool_parking : Pool :=
  {| threads := [Parking];
     queue := [];
     jobs_left := 0;
     bailout := false;
     finished := false;
     job_available_mutex := Some 0;
     caller := Idle |}.

(** The workers end, and build the no-op, only under the flag. *)
Record SpentInv (s : Pool) (evs : list Event) : Prop := mkSpentInv {
  spent_ended : bailout s = false ->
                forall i w, threads s !! i = Some w -> has_ended w = false;
  spent_injected : length (injected evs) <= spent s;
}.

(** After [sched_busy] the pool is destroyed: the worker finishes both
    jobs, then the destructor goes through [JoinAll]. *)
Definition sched_destroy : list Label :=
  [LWork 0; LWork 0; LWork 0; LWork 0; LWork 0;
   LCaller; LCaller; LCaller; LWork 0; LCaller; LCaller].

Definition events_destroy : list Event :=
  [EvCompleted 0 (UserJob 1); EvDequeued 0 (UserJob 2);
   EvCompleted 0 (UserJob 2); EvDrained; EvBailout; EvBroadcast;
   EvJoined 0; EvFinished].

(** The worker is about to block when [JoinAll(false)] is called. *)
Definition pool_parking_shutdown : Pool :=
  {| threads := [Parking];
     queue := [];
     jobs_left := 0;
     bailout := false;
     finished := false;
     job_available_mutex := Some 0;
     caller := RaiseBailout |}.

(** The threads that were joined, in the order of the joins. *)
Definition joins (evs : list Event) : list nat :=
  omap (fun e => match e with EvJoined k => Some k | _ => None end) evs.

(** * Effects of the caller's steps, and further example runs *)

(** ** What each step of the controlling thread does *)


(** ** More jobs than an [int] counts *)

(** 2^31 jobs. *)
Definition many : nat := Z.to_nat 2147483648.

(** [k] jobs are submitted while the worker has not moved yet. *)
Definition sched_flood (k : nat) : list Label :=
  replicate k (LAddJob (UserJob 0) 0).

Definition pool_flooded (k : nat) : Pool :=
  {| threads := [AtGuard];
     queue := replicate k (UserJob 0);
     jobs_left := AtomicInt.wrap (Z.of_nat k);
     bailout := false;
     finished := false;
     job_available_mutex := None;
     caller := Idle |}.




(** ** Example schedules with two workers, and with a no-op *)






(** One job is submitted and run, the worker goes to sleep, [JoinAll(true)]
    is called, and the worker has just built the no-op. *)
Definition sched_compensating : list Label :=
  [LAddJob (UserJob 1) 0; LWork 0; LWork 0; LWork 0; LWork 0;
   LWork 0; LWork 0; LWork 0; LWork 0; LWork 0;
   LJoinAll true; LCaller; LCaller; LWork 0; LWork 0; LWork 0].

Definition pool_compensating : Pool :=
  {| threads := [Running NoOp];
     queue := [];
     jobs_left := 1;
     bailout := true;
     finished := false;
     job_available_mutex := None;
     caller := Joining 0 |}.

Definition events_compensating : list Event :=
  [EvSubmitted (UserJob 1); EvDequeued 0 (UserJob 1);
   EvCompleted 0 (UserJob 1); EvDrained; EvBailout; EvBroadcast;
   EvInjected 0].

(** Worker 0 owns the lock, worker 1 is waiting for it. *)
Definition sched_contended : list Label := [LWork 0; LWork 0; LWork 1].

Definition pool_contended : Pool :=
  {| threads := [Fetching; Entering];
     queue := [];
     jobs_left := 0;
     bailout := false;
     finished := false;
     job_available_mutex := Some 0;
     caller := Idle |}.

(** The worker finds the queue empty, a job is submitted, and the
    predicate of the wait holds: the worker is at line 80. *)
Definition sched_woken_job : list Label :=
  [LWork 0; LWork 0; LWork 0; LAddJob (UserJob 1) 0; LWork 0].

Definition pool_woken_job : Pool :=
  {| threads := [Woken];
     queue := [UserJob 1];
     jobs_left := 1;
     bailout := false;
     finished := false;
     job_available_mutex := Some 0;
     caller := Idle |}.

(** * Properties *)

(** ** Arithmetic of the counter *)

Module AtomicIntFacts.
Import AtomicInt.

Lemma wrap_in_range z : in_range (wrap z).
Proof.
  unfold in_range, wrap, INT_MIN, INT_MAX.
  pose proof (Z.mod_pos_bound (z + 2147483648) 4294967296). lia.
Qed.

Lemma wrap_id z : in_range z -> wrap z = z.
Proof.
  unfold in_range, wrap, INT_MIN, INT_MAX. intros Hz.
  rewrite Z.mod_small; lia.
Qed.

Lemma wrap_add_l a b : wrap (wrap a + b) = wrap (a + b).
Proof.
  unfold wrap.
  replace (((a + 2147483648) mod 4294967296 - 2147483648 + b + 2147483648))%Z
    with ((a + 2147483648) mod 4294967296 + b)%Z by lia.
  rewrite Zplus_mod_idemp_l. f_equal. f_equal. lia.
Qed.

Lemma incr_wrap z : incr (wrap z) = wrap (z + 1).
Proof. apply wrap_add_l. Qed.

Lemma decr_wrap z : decr (wrap z) = wrap (z - 1).
Proof. apply (wrap_add_l z (-1)). Qed.

Lemma incr_below z : in_range z -> (z < INT_MAX)%Z -> incr z = (z + 1)%Z.
Proof. unfold incr, in_range, INT_MIN, INT_MAX. intros ? ?. apply wrap_id.
       unfold in_range, INT_MIN, INT_MAX. lia. Qed.

Lemma decr_incr z : in_range z -> decr (incr z) = z.
Proof.
  intros Hz. unfold incr. rewrite decr_wrap.
  replace (z + 1 - 1)%Z with z by lia. by apply wrap_id.
Qed.

Lemma to_unsigned_nonneg z : (0 <= to_unsigned z)%Z.
Proof.
  unfold to_unsigned. pose proof (Z.mod_pos_bound z 4294967296). lia.
Qed.

Lemma to_unsigned_small z :
  (0 <= z <= INT_MAX)%Z -> to_unsigned z = z.
Proof. unfold to_unsigned, INT_MAX. intros ?. apply Z.mod_small. lia. Qed.

End AtomicIntFacts.

Import AtomicInt AtomicIntFacts.

(** ** Counting the jobs in flight *)

Lemma executing_cons w ws :
  executing (w :: ws) = (if is_running w then 1 else 0) + executing ws.
Proof.
  unfold executing. rewrite filter_cons.
  destruct (is_running w) eqn:E; case_decide; simpl; congruence.
Qed.

Lemma executing_insert ws i w w' :
  ws !! i = Some w ->
  executing (<[i:=w']> ws) + (if is_running w then 1 else 0)
  = executing ws + (if is_running w' then 1 else 0).
Proof.
  revert i. induction ws as [|a ws IH]; intros [|i] Hi; simplify_eq/=.
  - rewrite !executing_cons. lia.
  - rewrite !executing_cons. specialize (IH _ Hi). lia.
Qed.

Lemma executing_le ws : executing ws <= length ws.
Proof. apply length_filter. Qed.

(** ** Waking up threads *)

Lemma woke_refl ws : woke ws ws.
Proof. apply Forall2_same_length_lookup_2; [done|]. intros; simplify_eq; auto. Qed.

Lemma woke_insert ws i :
  ws !! i = Some Blocked -> woke ws (<[i:=Notified]> ws).
Proof.
  intros Hi. apply Forall2_same_length_lookup_2.
  - by rewrite length_insert.
  - intros k w w' Hw Hw'. destruct (decide (k = i)) as [->|Hne].
    + rewrite list_lookup_insert_eq in Hw' by (by eapply lookup_lt_Some).
      simplify_eq. auto.
    + rewrite list_lookup_insert_ne in Hw' by done. simplify_eq. auto.
Qed.

Lemma first_blocked_Some ws k :
  first_blocked ws = Some k -> ws !! k = Some Blocked.
Proof.
  revert k. induction ws as [|w ws IH]; intros k H; simpl in *; [done|].
  destruct w; simplify_eq/=; try done;
    destruct (first_blocked ws) eqn:E; simplify_eq/=; by apply IH.
Qed.


Lemma notify_one_woke pick ws : woke ws (notify_one pick ws).
Proof.
  unfold notify_one.
  destruct (ws !! pick) as [[]|] eqn:E;
    try (destruct (first_blocked ws) eqn:F;
         [apply woke_insert; by apply first_blocked_Some | apply woke_refl]).
  by apply woke_insert.
Qed.

Lemma notify_all_woke ws : woke ws (notify_all ws).
Proof.
  apply Forall2_same_length_lookup_2.
  - unfold notify_all. by rewrite length_fmap.
  - intros k w w' Hw Hw'. unfold notify_all in Hw'.
    rewrite list_lookup_fmap, Hw in Hw'. simplify_eq/=.
    destruct w; simpl; auto.
Qed.

Lemma woke_length ws ws' : woke ws ws' -> length ws' = length ws.
Proof. intros H. symmetry. by eapply Forall2_length. Qed.

Lemma woke_lookup ws ws' k w' :
  woke ws ws' -> ws' !! k = Some w' ->
  ws !! k = Some w' \/ (ws !! k = Some Blocked /\ w' = Notified).
Proof.
  intros H Hk. destruct (Forall2_lookup_r _ _ _ _ _ H Hk) as (w & Hw & [->|[-> ->]]); auto.
Qed.

Lemma woke_lookup_l ws ws' k w :
  woke ws ws' -> ws !! k = Some w ->
  ws' !! k = Some w \/ (w = Blocked /\ ws' !! k = Some Notified).
Proof.
  intros H Hk. destruct (Forall2_lookup_l _ _ _ _ _ H Hk) as (w' & Hw & [->|[-> ->]]); auto.
Qed.

Lemma woke_executing ws ws' : woke ws ws' -> executing ws' = executing ws.
Proof.
  induction 1 as [|w w' ws ws' Hw _ IH]; [done|].
  rewrite !executing_cons, IH. by destruct Hw as [->|[-> ->]].
Qed.

(** ** Schedules *)

Lemma exec_app ls1 ls2 s evs :
  exec (ls1 ++ ls2) s evs =
  match exec ls1 s evs with
  | Some (s1, evs1) => exec ls2 s1 evs1
  | None => None
  end.
Proof.
  revert s evs. induction ls1 as [|l ls1 IH]; intros s evs; simpl; [done|].
  destruct (step l s); auto.
Qed.

Lemma exec_prepend ls s acc evs0 :
  exec ls s (acc ++ evs0) =
  (fun r => (r.1, acc ++ r.2)) <$> exec ls s evs0.
Proof.
  revert s evs0. induction ls as [|l ls IH]; intros s evs0; simpl; [done|].
  destruct (step l s) as [s1 e| |]; try done.
  rewrite <- app_assoc. apply IH.
Qed.

Lemma exec_events ls s evs0 s' evs :
  exec ls s evs0 = Some (s', evs) ->
  exists evs1, evs = evs0 ++ evs1 /\ exec ls s [] = Some (s', evs1).
Proof.
  rewrite <- (app_nil_r evs0) at 1. rewrite exec_prepend.
  destruct (exec ls s []) as [[s1 evs1]|]; intros H; simplify_eq/=. eauto.
Qed.

Lemma exec_Execution ls s0 s evs :
  exec ls s0 [] = Some (s, evs) <-> Execution s0 ls s evs.
Proof.
  split.
  - revert s evs. induction ls as [|l ls IH] using rev_ind; intros s evs H.
    + simpl in H. simplify_eq. constructor.
    + rewrite exec_app in H.
      destruct (exec ls s0 []) as [[s1 evs1]|] eqn:E; [|done].
      simpl in H. destruct (step l s1) as [s2 e| |] eqn:Hs; simplify_eq.
      econstructor; eauto.
  - induction 1 as [|ls s evs l s' e _ IH Hs]; [done|].
    rewrite exec_app, IH. simpl. by rewrite Hs.
Qed.

Lemma Execution_trans s0 ls0 s1 evs0 ls s evs :
  Execution s0 ls0 s1 evs0 -> Execution s1 ls s evs ->
  Execution s0 (ls0 ++ ls) s (evs0 ++ evs).
Proof.
  intros H0. induction 1 as [|ls s evs l s' e _ IH Hs].
  - by rewrite !app_nil_r.
  - rewrite !app_assoc. by econstructor.
Qed.

(** A transition shows at most one event. *)
Lemma step_events_short l s s' e :
  step l s = Step s' e -> e = [] \/ exists x, e = [x].
Proof.
  intros H. destruct l as [job pick|i|i| |b|]; simpl in H.
  - injection H as <- <-. eauto.
  - unfold Task, next_job in H.
    destruct (threads s !! i) as [w|] eqn:Hw; [|done].
    destruct w;
      repeat match type of H with
             | context [if ?b then _ else _] => destruct b eqn:?
             | context [match ?x with _ => _ end] => destruct x eqn:?
             end; try done; injection H as <- <-; eauto.
  - unfold spurious_wakeup in H.
    destruct (threads s !! i) as [[]|]; try done. injection H as <- <-. eauto.
  - unfold call, WaitAll in H. destruct (caller s); try done.
    destruct (0 <? jobs_left s)%Z; injection H as <- <-; eauto.
  - unfold call, JoinAll, WaitAll in H. destruct (caller s); try done.
    destruct (finished s), b; simpl in H;
      try destruct (0 <? jobs_left s)%Z; injection H as <- <-; eauto.
  - unfold caller_step in H.
    destruct (caller s) as [|fj| | |k]; try done.
    + destruct (jobs_left s =? 0)%Z; [|done]. injection H as <- <-. eauto.
    + injection H as <- <-. eauto.
    + injection H as <- <-. eauto.
    + destruct (threads s !! k) as [[]|]; try done; injection H as <- <-; eauto.
Qed.

(** Every event of a history was shown by one transition, taken in the
    state that the events before it led to. *)
Lemma Execution_event_origin s0 ls s evs evs1 x evs2 :
  Execution s0 ls s evs -> evs = evs1 ++ x :: evs2 ->
  exists ls1 s1 l s1',
    Execution s0 ls1 s1 evs1 /\ step l s1 = Step s1' [x].
Proof.
  intros H. revert evs2.
  induction H as [|ls s evs l s' e Hex IH Hs]; intros evs2 Heq.
  - by destruct evs1.
  - destruct (step_events_short _ _ _ _ Hs) as [->|[y ->]].
    + rewrite app_nil_r in Heq. by eapply IH.
    + destruct evs2 as [|z evs2 _] using rev_ind.
      * apply app_inj_tail in Heq as [<- <-]. eauto 6.
      * rewrite app_comm_cons, app_assoc in Heq.
        apply app_inj_tail in Heq as [-> _]. by eapply IH.
Qed.

(** ** The invariant of the pool *)

Section Invariant.

Variable ThreadCount : nat.

Lemma Inv_init : Inv ThreadCount (ThreadPool ThreadCount).
Proof.
  split; simpl.
  - apply length_replicate.
  - unfold outstanding; simpl.
    replace (executing (replicate ThreadCount AtGuard)) with 0; [done|].
    induction ThreadCount as [|n IH]; [done|].
    simpl. by rewrite executing_cons.
  - intros i; split; [done|]. intros (w & Hw & Hl).
    apply lookup_replicate in Hw as [-> _]. done.
  - intros i Hw. apply lookup_replicate in Hw as [? _]. done.
Qed.

(** How the ownership of the lock follows one worker's move. *)
Lemma owner_keep (ws : list Worker) (m : option nat) (i : nat) w w' :
  (forall k, m = Some k <-> exists x, ws !! k = Some x /\ holds_lock x = true) ->
  ws !! i = Some w -> holds_lock w' = holds_lock w ->
  forall k, m = Some k <-> exists x, <[i:=w']> ws !! k = Some x /\ holds_lock x = true.
Proof.
  intros H Hi Hh k. rewrite H. destruct (decide (k = i)) as [->|Hne].
  - rewrite list_lookup_insert_eq by (by eapply lookup_lt_Some).
    split; intros (x & Hx & Hl); simplify_eq; eexists; split; eauto; congruence.
  - by rewrite list_lookup_insert_ne.
Qed.

Lemma owner_acquire (ws : list Worker) (i : nat) w w' :
  (forall k, None = Some k <-> exists x, ws !! k = Some x /\ holds_lock x = true) ->
  ws !! i = Some w -> holds_lock w' = true ->
  forall k, Some i = Some k <-> exists x, <[i:=w']> ws !! k = Some x /\ holds_lock x = true.
Proof.
  intros H Hi Hh k. destruct (decide (k = i)) as [->|Hne].
  - rewrite list_lookup_insert_eq by (by eapply lookup_lt_Some).
    split; [eauto|done].
  - rewrite list_lookup_insert_ne by done. rewrite <- H.
    split; intros ?; simplify_eq.
Qed.

Lemma owner_release (ws : list Worker) (m : option nat) (i : nat) w w' :
  (forall k, m = Some k <-> exists x, ws !! k = Some x /\ holds_lock x = true) ->
  ws !! i = Some w -> holds_lock w = true -> holds_lock w' = false ->
  forall k, None = Some k <-> exists x, <[i:=w']> ws !! k = Some x /\ holds_lock x = true.
Proof.
  intros H Hi Hh Hh' k. split; [done|]. intros (x & Hx & Hl).
  assert (m = Some i) as Hm by (apply H; eauto).
  destruct (decide (k = i)) as [->|Hne].
  - rewrite list_lookup_insert_eq in Hx by (by eapply lookup_lt_Some). congruence.
  - rewrite list_lookup_insert_ne in Hx by done.
    assert (m = Some k) by (apply H; eauto). congruence.
Qed.

Lemma owner_woke (ws ws' : list Worker) (m : option nat) :
  woke ws ws' ->
  (forall k, m = Some k <-> exists x, ws !! k = Some x /\ holds_lock x = true) ->
  forall k, m = Some k <-> exists x, ws' !! k = Some x /\ holds_lock x = true.
Proof.
  intros Hw H k. rewrite H. split; intros (x & Hx & Hl).
  - destruct (woke_lookup_l _ _ _ _ Hw Hx) as [?|[-> ?]]; [eauto|done].
  - destruct (woke_lookup _ _ _ _ Hw Hx) as [?|[? ->]]; [eauto|done].
Qed.

(** The holder of the lock is unique. *)
Lemma owner_unique s i k w x :
  Inv ThreadCount s -> threads s !! i = Some w -> holds_lock w = true ->
  threads s !! k = Some x -> holds_lock x = true -> i = k.
Proof.
  intros HI Hi Hw Hk Hx.
  assert (job_available_mutex s = Some i) as E1 by (apply (inv_owner _ _ HI); eauto).
  assert (job_available_mutex s = Some k) as E2 by (apply (inv_owner _ _ HI); eauto).
  congruence.
Qed.

Lemma woken_insert_other (ws : list Worker) (i : nat) w' (k : nat) :
  <[i:=w']> ws !! k = Some Woken -> w' <> Woken ->
  k <> i /\ ws !! k = Some Woken.
Proof.
  intros H Hne. apply list_lookup_insert_Some in H as [(-> & ? & ?)|[? ?]]; done.
Qed.

(** A worker running a job accounts for one unit of the counter. *)
Lemma outstanding_running s i j :
  threads s !! i = Some (Running j) -> 0 < executing (threads s).
Proof.
  intros Hi. pose proof (executing_insert _ _ _ AtGuard Hi) as H. simpl in H. lia.
Qed.

(** *** Every transition keeps the invariant *)

Ltac counter_tac :=
  unfold outstanding in *; simpl;
  repeat match goal with Hq : queue _ = _ |- _ => rewrite Hq in * end;
  try match goal with
  | Hw : threads ?s !! ?i = Some ?w
    |- context [executing (<[?i:=?w']> (threads ?s))] =>
      let Hex := fresh "Hex" in
      pose proof (executing_insert _ _ _ w' Hw) as Hex; simpl in Hex
  end;
  match goal with
  | Hc : jobs_left ?s = _ |- _ => rewrite Hc
  end;
  rewrite ?incr_wrap, ?decr_wrap; f_equal; simpl in *;
  rewrite ?length_app; simpl; lia.

Ltac woken_tac i Hwok HI :=
  let k := fresh "k" in
  let Hk := fresh "Hk" in
  intros k Hk; apply woken_insert_other in Hk as [? Hk]; [|done];
  first [ destruct (Hwok _ Hk) as [?|?]; by auto
        | exfalso; assert (i = k) by (eapply (owner_unique _ _ _ _ _ HI); eauto);
          congruence ].

Lemma Task_Inv i s s' e :
  Inv ThreadCount s -> Task i s = Step s' e -> Inv ThreadCount s'.
Proof.
  intros HI H. pose proof HI as [Hlen Hcnt Hown Hwok].
  unfold Task, next_job in H.
  destruct (threads s !! i) as [w|] eqn:Hw; [|done].
  destruct w;
    repeat match type of H with
           | context [if ?b then _ else _] => destruct b eqn:?
           | context [match ?x with _ => _ end] => destruct x eqn:?
           end; try done; injection H as <- <-; split; simpl;
    rewrite ?length_insert; try done.
  all: try counter_tac.
  all: try (eapply owner_keep; by eauto).
  all: try (eapply owner_release; by eauto).
  all: try (eapply owner_acquire; by eauto).
  all: try woken_tac i Hwok HI.
  (* the wait is over: the predicate held *)
  intros k Hk. destruct (decide (k = i)) as [->|Hne].
  - apply orb_true_iff in Heqb as [Hq|Hb]; [right|by left].
    intros Hnil. unfold JobsRemaining in Hq. by rewrite Hnil in Hq.
  - rewrite list_lookup_insert_ne in Hk by done. eauto.
Qed.

(** Unblocking threads, whoever does it, keeps the invariant. *)
Lemma woke_Inv s ws' :
  Inv ThreadCount s -> woke (threads s) ws' -> Inv ThreadCount (set_threads ws' s).
Proof.
  intros [Hlen Hcnt Hown Hwok] Hw. split; simpl.
  - by rewrite (woke_length _ _ Hw).
  - unfold outstanding in *; simpl. by rewrite (woke_executing _ _ Hw).
  - by eapply owner_woke.
  - intros k Hk. destruct (woke_lookup _ _ _ _ Hw Hk) as [?|[_ ?]]; [eauto|done].
Qed.

Lemma AddJob_Inv job pick s :
  Inv ThreadCount s -> Inv ThreadCount (AddJob job pick s).
Proof.
  intros HI.
  assert (Inv ThreadCount (set_jobs_left (incr (jobs_left s))
                             (set_queue (queue s ++ [job]) s))) as HI'.
  { destruct HI as [Hlen Hcnt Hown Hwok]. split; simpl; try done.
    - counter_tac.
    - intros k _. right. by destruct (queue s). }
  apply (woke_Inv _ _ HI'). simpl. apply notify_one_woke.
Qed.

Lemma spurious_wakeup_Inv i s s' e :
  Inv ThreadCount s -> spurious_wakeup i s = Step s' e -> Inv ThreadCount s'.
Proof.
  intros HI H. unfold spurious_wakeup in H.
  destruct (threads s !! i) as [[]|] eqn:Hw; try done. injection H as <- <-.
  apply (woke_Inv _ _ HI). by apply woke_insert.
Qed.

(** The controlling thread only touches the flags, its own program
    counter, and the threads it unblocks or joins. *)
Lemma set_caller_Inv c s : Inv ThreadCount s -> Inv ThreadCount (set_caller c s).
Proof. by intros []. Qed.

Lemma caller_step_Inv s s' e :
  Inv ThreadCount s -> caller_step s = Step s' e -> Inv ThreadCount s'.
Proof.
  intros HI H. unfold caller_step in H.
  destruct (caller s) as [|fj| | |k] eqn:Hc; try done.
  - destruct (jobs_left s =? 0)%Z; [|done]. injection H as <- <-.
    by apply set_caller_Inv.
  - injection H as <- <-. apply set_caller_Inv.
    destruct HI as [Hlen Hcnt Hown Hwok]. split; simpl; auto.
  - injection H as <- <-. apply set_caller_Inv, woke_Inv; [done|].
    apply notify_all_woke.
  - destruct (threads s !! k) as [w|] eqn:Hw.
    + destruct w; try done; injection H as <- <-; apply set_caller_Inv; [|done].
      pose proof HI as [Hlen Hcnt Hown Hwok]. split; simpl.
      * by rewrite length_insert.
      * counter_tac.
      * eapply owner_keep; by eauto.
      * woken_tac k Hwok HI.
    + injection H as <- <-. apply set_caller_Inv.
      destruct HI as [Hlen Hcnt Hown Hwok]. split; simpl; auto.
Qed.

Lemma step_Inv l s s' e :
  Inv ThreadCount s -> step l s = Step s' e -> Inv ThreadCount s'.
Proof.
  intros HI H. destruct l as [job pick|i|i| |b|]; simpl in H.
  - injection H as <- <-. by apply AddJob_Inv.
  - by eapply Task_Inv.
  - by eapply spurious_wakeup_Inv.
  - unfold call, WaitAll in H.
    destruct (caller s); try done.
    destruct (0 <? jobs_left s)%Z; injection H as <- <-; by apply set_caller_Inv.
  - unfold call, JoinAll, WaitAll in H.
    destruct (caller s); try done.
    destruct (finished s), b; simpl in H;
      try destruct (0 <? jobs_left s)%Z; injection H as <- <-;
      try done; by apply set_caller_Inv.
  - by eapply caller_step_Inv.
Qed.

Lemma Execution_Inv ls s evs :
  Execution (ThreadPool ThreadCount) ls s evs -> Inv ThreadCount s.
Proof.
  induction 1 as [|ls s evs l s' e _ IH Hs]; [apply Inv_init|].
  by eapply step_Inv.
Qed.

Lemma run_Inv ls s evs :
  run ThreadCount ls = Some (s, evs) -> Inv ThreadCount s.
Proof. intros H. apply exec_Execution in H. by eapply Execution_Inv. Qed.

End Invariant.

Lemma Execution_Inv_from n s0 ls s evs :
  Inv n s0 -> Execution s0 ls s evs -> Inv n s.
Proof.
  intros H0. induction 1 as [|ls s evs l s' e _ IH Hs]; [done|].
  by eapply step_Inv.
Qed.


(** ** Histories *)

Lemma running_cons w ws : running (w :: ws) = option_list (job_of w) ++ running ws.
Proof. unfold running. simpl. by destruct (job_of w). Qed.

Lemma running_insert (ws : list Worker) (i : nat) w w' :
  ws !! i = Some w ->
  option_list (job_of w') ++ running ws
  ≡ₚ option_list (job_of w) ++ running (<[i:=w']> ws).
Proof.
  revert i. induction ws as [|a ws IH]; intros i Hi; [done|].
  destruct i as [|i].
  - injection Hi as ->. change (<[0:=w']> (w :: ws)) with (w' :: ws).
    rewrite !running_cons. apply Permutation_app_swap_app.
  - change (<[S i:=w']> (a :: ws)) with (a :: <[i:=w']> ws).
    change (ws !! i = Some w) in Hi.
    rewrite !running_cons. specialize (IH _ Hi).
    rewrite Permutation_app_swap_app, IH. apply Permutation_app_swap_app.
Qed.

Lemma woke_running ws ws' : woke ws ws' -> running ws' = running ws.
Proof.
  induction 1 as [|w w' ws ws' Hw _ IH]; [done|].
  rewrite !running_cons, IH. by destruct Hw as [->|[-> ->]].
Qed.

Lemma executing_running ws : executing ws = length (running ws).
Proof.
  induction ws as [|w ws IH]; [done|].
  rewrite executing_cons, running_cons, length_app, IH. by destruct w.
Qed.

Lemma submitted_app evs1 evs2 : submitted (evs1 ++ evs2) = submitted evs1 ++ submitted evs2.
Proof. apply omap_app. Qed.
Lemma dequeued_app evs1 evs2 : dequeued (evs1 ++ evs2) = dequeued evs1 ++ dequeued evs2.
Proof. apply omap_app. Qed.
Lemma injected_app evs1 evs2 : injected (evs1 ++ evs2) = injected evs1 ++ injected evs2.
Proof. apply omap_app. Qed.
Lemma completed_app evs1 evs2 : completed (evs1 ++ evs2) = completed evs1 ++ completed evs2.
Proof. apply omap_app. Qed.

(** What one move of a worker does to the queue and to the jobs in flight. *)
Lemma Task_fifo i s s' e :
  Task i s = Step s' e ->
  submitted e = [] /\ dequeued e ++ queue s' = queue s.
Proof.
  unfold Task, next_job. intros H.
  destruct (threads s !! i) as [w|] eqn:Hw; [|done].
  destruct w;
    repeat match type of H with
           | context [if ?b then _ else _] => destruct b eqn:?
           | context [match ?x with _ => _ end] => destruct x eqn:?
           end; try done; by injection H as <- <-.
Qed.

Lemma Task_jobs i s s' e :
  Task i s = Step s' e ->
  dequeued e ++ injected e ++ running (threads s)
  ≡ₚ completed e ++ running (threads s').
Proof.
  unfold Task, next_job. intros H.
  destruct (threads s !! i) as [w|] eqn:Hw; [|done].
  destruct w;
    repeat match type of H with
           | context [if ?b then _ else _] => destruct b eqn:?
           | context [match ?x with _ => _ end] => destruct x eqn:?
           end; try done; injection H as <- <-; simpl;
    match goal with
    | |- context [running (<[i:=?w']> _)] =>
        pose proof (running_insert _ _ _ w' Hw) as Hr; simpl in Hr
    end; done.
Qed.

Lemma step_fifo l s s' e :
  step l s = Step s' e -> dequeued e ++ queue s' = queue s ++ submitted e.
Proof.
  intros H. destruct l as [job pick|i|i| |b|]; simpl in H.
  - by injection H as <- <-.
  - apply Task_fifo in H as [-> ->]. by rewrite app_nil_r.
  - unfold spurious_wakeup in H.
    destruct (threads s !! i) as [[]|]; try done. injection H as <- <-.
    by rewrite app_nil_r.
  - unfold call, WaitAll in H.
    destruct (caller s); try done.
    destruct (0 <? jobs_left s)%Z; injection H as <- <-; by rewrite app_nil_r.
  - unfold call, JoinAll, WaitAll in H.
    destruct (caller s); try done.
    destruct (finished s), b; simpl in H;
      try destruct (0 <? jobs_left s)%Z; injection H as <- <-;
      by rewrite app_nil_r.
  - unfold caller_step in H.
    destruct (caller s) as [|fj| | |k]; try done.
    + destruct (jobs_left s =? 0)%Z; [|done]. injection H as <- <-.
      by rewrite app_nil_r.
    + injection H as <- <-. by rewrite app_nil_r.
    + injection H as <- <-. by rewrite app_nil_r.
    + destruct (threads s !! k) as [[]|]; try done; injection H as <- <-;
        by rewrite app_nil_r.
Qed.

Lemma step_jobs l s s' e :
  step l s = Step s' e ->
  dequeued e ++ injected e ++ running (threads s)
  ≡ₚ completed e ++ running (threads s').
Proof.
  intros H. destruct l as [job pick|i|i| |b|]; simpl in H.
  - injection H as <- <-. simpl.
    by rewrite (woke_running _ _ (notify_one_woke pick (threads s))).
  - by eapply Task_jobs.
  - unfold spurious_wakeup in H.
    destruct (threads s !! i) as [[]|] eqn:Hw; try done. injection H as <- <-.
    simpl. by rewrite (woke_running _ _ (woke_insert _ _ Hw)).
  - unfold call, WaitAll in H.
    destruct (caller s); try done.
    by destruct (0 <? jobs_left s)%Z; injection H as <- <-.
  - unfold call, JoinAll, WaitAll in H.
    destruct (caller s); try done.
    by destruct (finished s), b; simpl in H;
      try destruct (0 <? jobs_left s)%Z; injection H as <- <-.
  - unfold caller_step in H.
    destruct (caller s) as [|fj| | |k]; try done.
    + destruct (jobs_left s =? 0)%Z; [|done]. by injection H as <- <-.
    + by injection H as <- <-.
    + injection H as <- <-. simpl.
      by rewrite (woke_running _ _ (notify_all_woke (threads s))).
    + destruct (threads s !! k) as [[]|] eqn:Hw; try done; injection H as <- <-;
        simpl; try done.
      pose proof (running_insert _ _ _ Joined Hw) as Hr. by simpl in Hr.
Qed.

Lemma step_Hist l s s' e evs :
  Hist s evs -> step l s = Step s' e -> Hist s' (evs ++ e).
Proof.
  intros [Hf Hj] H. split.
  - rewrite submitted_app, dequeued_app, Hf, <- !app_assoc.
    f_equal. symmetry. by apply step_fifo in H.
  - rewrite dequeued_app, injected_app, completed_app.
    apply step_jobs in H.
    rewrite <- (app_assoc (completed evs)), <- H.
    transitivity ((dequeued evs ++ injected evs) ++ dequeued e ++ injected e).
    { rewrite <- !app_assoc. f_equiv. rewrite !app_assoc. f_equiv.
      apply Permutation_app_comm. }
    rewrite Hj, <- !app_assoc. f_equiv.
    rewrite (app_assoc (dequeued e)). apply Permutation_app_comm.
Qed.

Lemma Hist_init n : Hist (ThreadPool n) [].
Proof.
  split; simpl; [done|].
  replace (running (replicate n AtGuard)) with (@nil Job); [done|].
  induction n as [|n IH]; [done|]. exact IH.
Qed.

Lemma Execution_Hist n ls s evs :
  Execution (ThreadPool n) ls s evs -> Hist s evs.
Proof.
  induction 1 as [|ls s evs l s' e _ IH Hs]; [apply Hist_init|].
  by eapply step_Hist.
Qed.

Lemma run_Hist n ls s evs : run n ls = Some (s, evs) -> Hist s evs.
Proof. intros H. apply exec_Execution in H. by eapply Execution_Hist. Qed.

Lemma all_joined_running (ws : list Worker) :
  (forall i w, ws !! i = Some w -> w = Joined) -> running ws = [].
Proof.
  induction ws as [|a ws IH]; intros H; [done|].
  rewrite running_cons, (H 0 a eq_refl). simpl. apply IH.
  intros i w Hw. by apply (H (S i)).
Qed.

(** ** The shutdown protocol *)

Lemma joined_below_woke k ws ws' :
  woke ws ws' -> joined_below k ws -> joined_below k ws'.
Proof.
  intros Hw H i Hi. rewrite (woke_length _ _ Hw) in Hi. rewrite <- (H i Hi).
  split; intros Hj.
  - destruct (woke_lookup _ _ _ _ Hw Hj) as [?|[_ ?]]; done.
  - destruct (woke_lookup_l _ _ _ _ Hw Hj) as [?|[? _]]; done.
Qed.

Lemma joined_below_insert k (ws : list Worker) (i : nat) w w' :
  ws !! i = Some w -> w <> Joined -> w' <> Joined ->
  joined_below k ws -> joined_below k (<[i:=w']> ws).
Proof.
  intros Hi Hw Hw' H j Hj. rewrite length_insert in Hj. rewrite <- (H j Hj).
  destruct (decide (j = i)) as [->|Hne].
  - rewrite list_lookup_insert_eq by done. split; intros ?; simplify_eq.
  - by rewrite list_lookup_insert_ne.
Qed.

(** A worker leaves the flags and the controlling thread alone, and is
    never at [Joined] while it can move. *)
Lemma Task_frame i s s' e :
  Task i s = Step s' e ->
  bailout s' = bailout s /\ finished s' = finished s /\ caller s' = caller s /\
  caller_events e = [] /\
  exists w w', threads s !! i = Some w /\ threads s' = <[i:=w']> (threads s) /\
               w <> Joined /\ w' <> Joined.
Proof.
  unfold Task, next_job. intros H.
  destruct (threads s !! i) as [w|] eqn:Hw; [|done].
  destruct w;
    repeat match type of H with
           | context [if ?b then _ else _] => destruct b eqn:?
           | context [match ?x with _ => _ end] => destruct x eqn:?
           end; try done; injection H as <- <-; simpl;
    (repeat split; try done); eexists _, _; (repeat split; try done).
Qed.

Lemma CallInv_threads s ws' :
  CallInv s -> length ws' = length (threads s) ->
  (forall k, joined_below k (threads s) -> joined_below k ws') ->
  CallInv (set_threads ws' s).
Proof.
  intros [Hb Hj Hi Hf] Hlen Hjb. split.
  - exact Hb.
  - unfold joined_count in *. simpl. rewrite Hlen. by apply Hjb.
  - unfold joined_count in *. simpl. by rewrite Hlen.
  - exact Hf.
Qed.

Lemma CallInv_frame s s' :
  CallInv s -> threads s' = threads s -> bailout s' = bailout s ->
  finished s' = finished s -> caller s' = caller s -> CallInv s'.
Proof.
  intros [Hb Hj Hi Hf] Ht Hbl Hfi Hc. split.
  - unfold flag_raised in *. by rewrite Hbl, Hc, Hfi.
  - unfold joined_count in *. by rewrite Ht, Hc, Hfi.
  - unfold joined_count in *. by rewrite Ht, Hc, Hfi.
  - by rewrite Hfi, Hc.
Qed.

Lemma CallInv_init n : CallInv (ThreadPool n).
Proof.
  split; simpl.
  - done.
  - intros i Hi. rewrite length_replicate in Hi.
    unfold joined_count; simpl.
    rewrite lookup_replicate_2 by done. split; [done|lia].
  - unfold joined_count; simpl. lia.
  - done.
Qed.

Lemma step_CallInv l s s' evs :
  CallInv s -> step l s = Step s' evs -> CallInv s'.
Proof.
  intros HC H. destruct l as [job pick|i|i| |b|]; simpl in H.
  - injection H as <- <-. unfold AddJob.
    pose proof (notify_one_woke pick (threads s)) as Hw.
    apply CallInv_threads.
    + by eapply CallInv_frame.
    + by rewrite (woke_length _ _ Hw).
    + intros k. by apply joined_below_woke.
  - destruct (Task_frame _ _ _ _ H) as (Hb & Hf & Hc & _ & w & w' & Hw & Ht & Hn & Hn').
    destruct HC as [Cb Cj Ci Cf]. split.
    + unfold flag_raised. by rewrite Hb, Hc, Hf.
    + unfold joined_count. rewrite Hc, Hf, Ht, length_insert.
      by eapply joined_below_insert.
    + unfold joined_count. by rewrite Hc, Hf, Ht, length_insert.
    + by rewrite Hf, Hc.
  - unfold spurious_wakeup in H.
    destruct (threads s !! i) as [[]|] eqn:Hw; try done. injection H as <- <-.
    apply CallInv_threads; [done|by rewrite length_insert|].
    intros k. by eapply joined_below_insert.
  - unfold call, WaitAll in H.
    destruct (caller s) eqn:Hc; try done.
    destruct HC as [Cb Cj Ci Cf].
    destruct (0 <? jobs_left s)%Z; injection H as <- <-; split;
      unfold flag_raised, joined_count in *; simpl; rewrite ?Hc in *; auto.
  - unfold call, JoinAll, WaitAll in H.
    destruct (caller s) eqn:Hc; try done.
    destruct HC as [Cb Cj Ci Cf].
    destruct (finished s) eqn:Hf, b; simpl in H;
      try destruct (0 <? jobs_left s)%Z; injection H as <- <-; try done;
      split; unfold flag_raised, joined_count in *; simpl;
      rewrite ?Hc, ?Hf in *; auto; try lia; done.
  - unfold caller_step in H. destruct HC as [Cb Cj Ci Cf].
    unfold flag_raised, joined_count in *.
    destruct (caller s) as [|fj| | |k] eqn:Hc; try done.
    + destruct (jobs_left s =? 0)%Z; [|done]. injection H as <- <-.
      destruct fj; split; unfold flag_raised, joined_count; simpl; auto;
        intros Hf; destruct (Cf Hf); done.
    + injection H as <- <-.
      split; unfold flag_raised, joined_count; simpl; auto.
      intros Hf. destruct (Cf Hf); done.
    + injection H as <- <-. pose proof (notify_all_woke (threads s)) as Hw.
      split; unfold flag_raised, joined_count; simpl; auto.
      * by eapply joined_below_woke.
      * lia.
      * intros Hf. destruct (Cf Hf); done.
    + destruct (threads s !! k) as [w|] eqn:Hw.
      * pose proof (lookup_lt_Some _ _ _ Hw) as Hlt.
        destruct w; try done; injection H as <- <-; split;
          unfold flag_raised, joined_count; simpl; rewrite ?length_insert; auto;
          try (intros Hf; destruct (Cf Hf); done).
        -- intros j Hj. rewrite length_insert in Hj.
           destruct (decide (j = k)) as [->|Hne].
           ++ rewrite list_lookup_insert_eq by done. split; [lia|done].
           ++ rewrite list_lookup_insert_ne by done. rewrite (Cj j Hj). lia.
        -- intros j Hj. destruct (decide (j = k)) as [->|Hne].
           ++ split; [lia|done].
           ++ rewrite (Cj j Hj). lia.
      * apply lookup_ge_None in Hw. injection H as <- <-.
        split; unfold flag_raised, joined_count; simpl; auto.
        intros j Hj. rewrite (Cj j Hj). lia.
Qed.

Lemma Execution_CallInv n ls s evs :
  Execution (ThreadPool n) ls s evs -> CallInv s.
Proof.
  induction 1 as [|ls s evs l s' e _ IH Hs]; [apply CallInv_init|].
  by eapply step_CallInv.
Qed.

Lemma run_CallInv n ls s evs : run n ls = Some (s, evs) -> CallInv s.
Proof. intros H. apply exec_Execution in H. by eapply Execution_CallInv. Qed.

(** ** Safety of line 82 *)

(** No run reaches [front()] on an empty queue. *)
Lemma step_no_Fault n l s : Inv n s -> step l s <> Fault.
Proof.
  intros HI. destruct l as [job pick|i|i| |b|]; simpl; try done.
  - unfold Task, next_job. destruct (threads s !! i) as [w|] eqn:Hw; [|done].
    destruct w; try done.
    + by destruct (bailout s).
    + by destruct (job_available_mutex s).
    + by destruct (queue s).
    + by destruct (negb (JobsRemaining s =? 0)%Z || bailout s).
    + by destruct (job_available_mutex s).
    + destruct (bailout s) eqn:Hb; [done|]. simpl.
      destruct (inv_woken _ _ HI i Hw) as [?|Hq]; [congruence|].
      by destruct (queue s).
  - unfold spurious_wakeup. by destruct (threads s !! i) as [[]|].
  - unfold call, WaitAll. destruct (caller s); try done.
    by destruct (0 <? jobs_left s)%Z.
  - unfold call, JoinAll, WaitAll. destruct (caller s); try done.
    by destruct (finished s), b; simpl; try destruct (0 <? jobs_left s)%Z.
  - unfold caller_step. destruct (caller s) as [|fj| | |k]; try done.
    + by destruct (jobs_left s =? 0)%Z.
    + by destruct (threads s !! k) as [[]|].
Qed.

Lemma run_no_Fault n ls s evs l : run n ls = Some (s, evs) -> step l s <> Fault.
Proof. intros H. eapply step_no_Fault, run_Inv, H. Qed.

(** ** A finalized pool *)

(** Every thread of a finalized pool was joined: no worker moves any more,
    so whatever is in the queue stays there. *)
Lemma finalized_threads_joined s i w :
  CallInv s -> finished s = true -> threads s !! i = Some w -> w = Joined.
Proof.
  intros HC Hf Hw. pose proof (lookup_lt_Some _ _ _ Hw) as Hlt.
  pose proof (call_joined _ HC i Hlt) as Hj. unfold joined_count in Hj.
  destruct (call_finished _ HC Hf) as [Hc|Hc]; rewrite Hc, Hf in Hj;
    apply Hj in Hlt; congruence.
Qed.

Lemma finalized_pool_is_still n ls s evs l s' e :
  run n ls = Some (s, evs) -> finished s = true ->
  step l s = Step s' e ->
  finished s' = true /\ dequeued e = [] /\ completed e = [] /\
  exists k, queue s' = queue s ++ k.
Proof.
  intros Hrun Hf H. pose proof (run_CallInv _ _ _ _ Hrun) as HC.
  destruct l as [job pick|i|i| |b|]; simpl in H.
  - injection H as <- <-. repeat split; try done. by exists [job].
  - unfold Task in H. destruct (threads s !! i) as [w|] eqn:Hw; [|done].
    by rewrite (finalized_threads_joined _ _ _ HC Hf Hw) in H.
  - unfold spurious_wakeup in H. destruct (threads s !! i) as [w|] eqn:Hw; [|done].
    by rewrite (finalized_threads_joined _ _ _ HC Hf Hw) in H.
  - unfold call, WaitAll in H. destruct (caller s); try done.
    destruct (0 <? jobs_left s)%Z; injection H as <- <-;
      repeat split; try done; exists []; by rewrite app_nil_r.
  - unfold call, JoinAll in H. destruct (caller s); try done.
    rewrite Hf in H. injection H as <- <-.
    repeat split; try done. exists []. by rewrite app_nil_r.
  - unfold caller_step in H.
    destruct (call_finished _ HC Hf) as [Hc|Hc]; rewrite Hc in H; [done|].
    destruct (jobs_left s =? 0)%Z; [|done]. injection H as <- <-.
    repeat split; try done. exists []. by rewrite app_nil_r.
Qed.

(** ** More jobs than an [int] counts *)

Lemma AddJob_flooded m :
  AddJob (UserJob 0) 0 (pool_flooded m) = pool_flooded (S m).
Proof.
  unfold AddJob, pool_flooded, set_threads, set_jobs_left, set_queue.
  cbn [threads queue jobs_left bailout finished job_available_mutex caller].
  rewrite incr_wrap, <- replicate_S_end, Nat2Z.inj_succ. reflexivity.
Qed.

Lemma exec_flood k m acc :
  exec (sched_flood k) (pool_flooded m) acc
  = Some (pool_flooded (m + k), acc ++ replicate k (EvSubmitted (UserJob 0))).
Proof.
  revert m acc. induction k as [|k IH]; intros m acc.
  - by rewrite Nat.add_0_r, app_nil_r.
  - change (sched_flood (S k)) with (LAddJob (UserJob 0) 0 :: sched_flood k).
    cbn [exec step]. rewrite AddJob_flooded, IH.
    rewrite <- app_assoc, Nat.add_succ_r. reflexivity.
Qed.

Lemma run_flood k :
  run 1 (sched_flood k)
  = Some (pool_flooded k, replicate k (EvSubmitted (UserJob 0))).
Proof. unfold run. apply (exec_flood k 0 []). Qed.

Lemma wrap_many : wrap (Z.of_nat many) = INT_MIN.
Proof. unfold many. rewrite Z2Nat.id by lia. reflexivity. Qed.





(** * The claims *)

(** ** Counting *)

Lemma counter_exact n s :
  Inv n s -> (Z.of_nat (outstanding s) <= INT_MAX)%Z ->
  jobs_left s = Z.of_nat (outstanding s).
Proof.
  intros HI Hb. rewrite (inv_counter _ _ HI). apply wrap_id.
  unfold in_range, INT_MIN, INT_MAX in *. lia.
Qed.

Lemma accounting s evs :
  Hist s evs ->
  length (submitted evs) + length (injected evs)
  = length (completed evs) + outstanding s.
Proof.
  intros [Hf Hj]. apply Permutation_length in Hj.
  rewrite !length_app in Hj. rewrite Hf, length_app.
  unfold outstanding. rewrite executing_running. lia.
Qed.

Lemma outstanding_bound n s evs :
  Inv n s -> Hist s evs -> outstanding s <= length (submitted evs) + n.
Proof.
  intros HI [Hf _]. unfold outstanding. rewrite Hf, length_app.
  pose proof (executing_le (threads s)). rewrite (inv_threads _ _ HI) in *. lia.
Qed.

(** C1 (as amended): in every reachable state in which the outstanding
    jobs fit an [int], [JobsRemaining()] is the number of jobs that are in
    the queue, and the counter [jobs_left] is that number plus the number of
    jobs that were handed to a worker and are still executing. *)
Theorem JobsRemaining_counts_the_queue n ls s evs :
  run n ls = Some (s, evs) ->
  (Z.of_nat (outstanding s) <= INT_MAX)%Z ->
  JobsRemaining s = Z.of_nat (length (queue s)) /\
  jobs_left s
  = (Z.of_nat (length (queue s)) + Z.of_nat (executing (threads s)))%Z.
Proof.
  intros Hrun Hb. pose proof (run_Inv _ _ _ _ Hrun) as HI. split.
  - unfold JobsRemaining. apply to_unsigned_small.
    unfold outstanding in Hb. lia.
  - rewrite (counter_exact _ _ HI Hb). unfold outstanding. lia.
Qed.

Lemma JobsRemaining_counts_the_queue_witness :
  run 1 sched_busy = Some (pool_busy, events_busy) /\
  (Z.of_nat (outstanding pool_busy) <= INT_MAX)%Z /\
  JobsRemaining pool_busy = Z.of_nat (length (queue pool_busy)) /\
  jobs_left pool_busy
  = (Z.of_nat (length (queue pool_busy))
     + Z.of_nat (executing (threads pool_busy)))%Z.
Proof.
  split; [reflexivity|]. split; [vm_compute; discriminate|].
  apply (JobsRemaining_counts_the_queue 1 sched_busy pool_busy events_busy).
  - reflexivity.
  - vm_compute. discriminate.
Defined.

(** C1 (as stated) fails: while the first job is executing and the second
    one waits, [JobsRemaining()] is 1 and the counter is 2. *)
Lemma JobsRemaining_is_not_the_counter :
  exists s evs,
    run 1 sched_busy = Some (s, evs) /\
    JobsRemaining s = 1%Z /\ jobs_left s = 2%Z /\
    JobsRemaining s <> jobs_left s.
Proof. eexists _, _. split; [reflexivity|]. by vm_compute. Qed.

(** C8 (as amended): the counter is the number of submissions plus the
    number of synthetic jobs minus the number of completions, so each of
    them moved it once; in every reachable state in which the outstanding
    jobs fit an [int] it is not negative, and neither is
    [JobsRemaining()]. *)
Theorem counter_never_negative n ls s evs :
  run n ls = Some (s, evs) ->
  (Z.of_nat (outstanding s) <= INT_MAX)%Z ->
  jobs_left s
  = (Z.of_nat (length (submitted evs)) + Z.of_nat (length (injected evs))
     - Z.of_nat (length (completed evs)))%Z /\
  (0 <= jobs_left s)%Z /\
  (0 <= JobsRemaining s)%Z.
Proof.
  intros Hrun Hb.
  pose proof (run_Inv _ _ _ _ Hrun) as HI.
  pose proof (accounting _ _ (run_Hist _ _ _ _ Hrun)) as Ha.
  rewrite (counter_exact _ _ HI Hb). repeat split; try lia.
  apply to_unsigned_nonneg.
Qed.

Lemma counter_never_negative_witness :
  run 1 sched_compensating = Some (pool_compensating, events_compensating) /\
  (Z.of_nat (outstanding pool_compensating) <= INT_MAX)%Z /\
  jobs_left pool_compensating
  = (Z.of_nat (length (submitted events_compensating))
     + Z.of_nat (length (injected events_compensating))
     - Z.of_nat (length (completed events_compensating)))%Z /\
  (0 <= jobs_left pool_compensating)%Z /\
  (0 <= JobsRemaining pool_compensating)%Z.
Proof.
  split; [reflexivity|]. split; [vm_compute; discriminate|].
  apply (counter_never_negative 1 sched_compensating pool_compensating
           events_compensating).
  - reflexivity.
  - vm_compute. discriminate.
Defined.

(** C8 (as stated) fails: after 2^31 submissions that no worker has taken
    yet, the counter has wrapped around and is [INT_MIN]. *)
Lemma counter_is_negative_after_overflow :
  run 1 (sched_flood many)
  = Some (pool_flooded many, replicate many (EvSubmitted (UserJob 0))) /\
  jobs_left (pool_flooded many) = INT_MIN /\
  (jobs_left (pool_flooded many) < 0)%Z.
Proof.
  split; [apply run_flood|].
  change (jobs_left (pool_flooded many)) with (wrap (Z.of_nat many)).
  rewrite wrap_many. split; [reflexivity|]. unfold INT_MIN. lia.
Qed.

(** C9: [Size()] is the template argument, and the array of threads has
    that size in every reachable state. *)
Theorem Size_is_fixed n ls s evs :
  run n ls = Some (s, evs) ->
  Size n = Z.of_nat n /\ length (threads s) = n.
Proof.
  intros Hrun. split; [done|]. exact (inv_threads _ _ (run_Inv _ _ _ _ Hrun)).
Qed.

Lemma Size_is_fixed_witness :
  run 1 sched_drop = Some (pool_dropped, events_dropped) /\
  Size 1 = Z.of_nat 1 /\ length (threads pool_dropped) = 1.
Proof.
  split; [reflexivity|].
  apply (Size_is_fixed 1 sched_drop pool_dropped events_dropped).
  reflexivity.
Defined.

(** ** Submission *)


Lemma AddJob_fields job pick s :
  (INT_MIN <= jobs_left s < INT_MAX)%Z ->
  queue (AddJob job pick s) = queue s ++ [job] /\
  jobs_left (AddJob job pick s) = (jobs_left s + 1)%Z.
Proof.
  intros Hr. split; [done|]. simpl. apply incr_below; [|lia].
  unfold in_range, INT_MIN, INT_MAX in *. lia.
Qed.



(** The notification of line 137 is lost on a worker that has tested its
    predicate and has not blocked yet: the worker then sleeps next to a
    queued job until something else wakes it. *)
Lemma AddJob_notification_may_be_lost :
  run 1 sched_missed
  = Some ({| threads := [Blocked];
             queue := [UserJob 1];
             jobs_left := 1;
             bailout := false;
             finished := false;
             job_available_mutex := None;
             caller := Idle |},
          [EvSubmitted (UserJob 1)]).
Proof. reflexivity. Qed.

(** C10: a finalized pool takes a job like any other pool: [AddJob] is
    possible, raises nothing, appends the job and adds one to the counter;
    the pool stays finalized. *)
Theorem AddJob_after_JoinAll s job pick :
  finished s = true ->
  (INT_MIN <= jobs_left s < INT_MAX)%Z ->
  step (LAddJob job pick) s = Step (AddJob job pick s) [EvSubmitted job] /\
  queue (AddJob job pick s) = queue s ++ [job] /\
  jobs_left (AddJob job pick s) = (jobs_left s + 1)%Z /\
  finished (AddJob job pick s) = true.
Proof.
  intros Hf Hr. destruct (AddJob_fields job pick s Hr) as [Hq Hc].
  repeat split; done.
Qed.

Lemma AddJob_after_JoinAll_witness :
  finished pool_finalized = true /\
  (INT_MIN <= jobs_left pool_finalized < INT_MAX)%Z /\
  step (LAddJob (UserJob 9) 0) pool_finalized
  = Step (AddJob (UserJob 9) 0 pool_finalized) [EvSubmitted (UserJob 9)] /\
  queue (AddJob (UserJob 9) 0 pool_finalized) = queue pool_finalized ++ [UserJob 9] /\
  jobs_left (AddJob (UserJob 9) 0 pool_finalized) = (jobs_left pool_finalized + 1)%Z /\
  finished (AddJob (UserJob 9) 0 pool_finalized) = true.
Proof.
  split; [reflexivity|]. split; [unfold INT_MIN, INT_MAX; simpl; lia|].
  apply (AddJob_after_JoinAll pool_finalized (UserJob 9) 0).
  - reflexivity.
  - unfold INT_MIN, INT_MAX; simpl; lia.
Defined.

(** ** The compensation of line 87 *)

(** C4: a worker whose [wait] has returned and that finds [bailout] set
    builds the no-op and adds one to the counter; running the no-op takes
    that one away again, so the counter is where it was. *)
Theorem shutdown_compensation s i :
  threads s !! i = Some Woken ->
  bailout s = true ->
  (INT_MIN <= jobs_left s < INT_MAX)%Z ->
  exists s1 s2,
    Task i s = Step s1 [EvInjected i] /\
    threads s1 !! i = Some (Running NoOp) /\
    jobs_left s1 = (jobs_left s + 1)%Z /\
    queue s1 = queue s /\
    Task i s1 = Step s2 [EvCompleted i NoOp] /\
    jobs_left s2 = jobs_left s /\
    queue s2 = queue s /\
    threads s2 !! i = Some AtGuard.
Proof.
  intros Hw Hb Hr. pose proof (lookup_lt_Some _ _ _ Hw) as Hlt.
  assert (in_range (jobs_left s)) as Hin
    by (unfold in_range, INT_MIN, INT_MAX in *; lia).
  eexists _, _. split.
  { unfold Task, next_job. rewrite Hw, Hb. simpl. reflexivity. }
  simpl. rewrite list_lookup_insert_eq by done.
  split; [done|]. split; [apply incr_below; [done|lia]|]. split; [done|].
  split.
  { unfold Task, next_job. simpl. rewrite list_lookup_insert_eq by done. reflexivity. }
  simpl. rewrite decr_incr by done. split; [done|]. split; [done|].
  rewrite list_lookup_insert_eq; [done|]. by rewrite length_insert.
Qed.

Lemma shutdown_compensation_witness :
  threads pool_woken !! 0 = Some Woken /\
  bailout pool_woken = true /\
  (INT_MIN <= jobs_left pool_woken < INT_MAX)%Z /\
  exists s1 s2,
    Task 0 pool_woken = Step s1 [EvInjected 0] /\
    threads s1 !! 0 = Some (Running NoOp) /\
    jobs_left s1 = (jobs_left pool_woken + 1)%Z /\
    queue s1 = queue pool_woken /\
    Task 0 s1 = Step s2 [EvCompleted 0 NoOp] /\
    jobs_left s2 = jobs_left pool_woken /\
    queue s2 = queue pool_woken /\
    threads s2 !! 0 = Some AtGuard.
Proof.
  split; [reflexivity|]. split; [reflexivity|].
  split; [unfold INT_MIN, INT_MAX; simpl; lia|].
  apply (shutdown_compensation pool_woken 0).
  - reflexivity.
  - reflexivity.
  - unfold INT_MIN, INT_MAX; simpl; lia.
Defined.

(** ** The queue *)

(** C6: what was submitted is what was popped followed by what waits, in
    the same order; [AddJob] appends at the tail, a worker that looks at a
    non-empty queue pops its head, and whatever a worker pops was the head. *)
Theorem queue_is_FIFO n ls s evs :
  run n ls = Some (s, evs) ->
  submitted evs = dequeued evs ++ queue s /\
  (forall job pick, queue (AddJob job pick s) = queue s ++ [job]) /\
  (forall i j q, threads s !! i = Some Fetching -> queue s = j :: q ->
     exists s', Task i s = Step s' [EvDequeued i j] /\
                queue s' = q /\ threads s' !! i = Some (Running j)) /\
  (forall i s' e j, Task i s = Step s' e -> dequeued e = [j] ->
     queue s = j :: queue s').
Proof.
  intros Hrun. split; [exact (hist_fifo _ _ (run_Hist _ _ _ _ Hrun))|].
  split; [done|]. split.
  - intros i j q Hw Hq. pose proof (lookup_lt_Some _ _ _ Hw) as Hlt.
    eexists. split.
    { unfold Task, next_job. rewrite Hw, Hq. reflexivity. }
    simpl. by rewrite list_lookup_insert_eq.
  - intros i s' e j Hs Hd. apply Task_fifo in Hs as [_ <-]. by rewrite Hd.
Qed.

Lemma queue_is_FIFO_witness :
  run 1 sched_busy = Some (pool_busy, events_busy) /\
  submitted events_busy = dequeued events_busy ++ queue pool_busy.
Proof.
  split; [reflexivity|].
  apply (queue_is_FIFO 1 sched_busy pool_busy events_busy). reflexivity.
Defined.

(** ** [JoinAll(false)] *)

(** C2 at work: the second job is still in the queue and still counted
    when [JoinAll(false)] has returned; it did not run, and no worker went
    through line 87. *)
Theorem JoinAll_false_leaves_the_queue :
  run 1 sched_drop = Some (pool_dropped, events_dropped) /\
  caller pool_dropped = Idle /\
  finished pool_dropped = true /\
  queue pool_dropped = [UserJob 2] /\
  completed events_dropped = [UserJob 1] /\
  injected events_dropped = [] /\
  JobsRemaining pool_dropped = 1%Z /\
  jobs_left pool_dropped = 1%Z.
Proof. repeat split. Qed.

(** A job that is in the queue when [JoinAll(false)] raises the flag is
    still taken and run by a worker that has already passed line 55. *)
Lemma JoinAll_false_may_run_a_queued_job :
  run 1 sched_late
  = Some (pool_joined,
          [EvSubmitted (UserJob 1); EvBailout; EvBroadcast;
           EvDequeued 0 (UserJob 1); EvCompleted 0 (UserJob 1);
           EvJoined 0; EvFinished]).
Proof. reflexivity. Qed.

(** ** Shutdown *)

(** The moves of the other threads are invisible to the controlling one. *)
Lemma other_step_frame l s s' e :
  match l with LAddJob _ _ | LWork _ | LSpurious _ => True | _ => False end ->
  step l s = Step s' e ->
  caller s' = caller s /\ finished s' = finished s /\ bailout s' = bailout s /\
  caller_events e = [] /\ length (threads s') = length (threads s).
Proof.
  intros Hl H. destruct l as [job pick|i|i| |b|]; try done; simpl in H.
  - injection H as <- <-. repeat split; try done.
    simpl. apply woke_length, notify_one_woke.
  - destruct (Task_frame _ _ _ _ H) as (Hb & Hf & Hc & He & w & w' & Hw & Ht & _).
    repeat split; try done. by rewrite Ht, length_insert.
  - unfold spurious_wakeup in H.
    destruct (threads s !! i) as [[]|] eqn:Hw; try done. injection H as <- <-.
    repeat split; try done. simpl. by rewrite length_insert.
Qed.

Lemma not_call_cases l :
  is_call l = false ->
  match l with LAddJob _ _ | LWork _ | LSpurious _ => True | _ => False end
  \/ l = LCaller.
Proof. destruct l; simpl; auto; done. Qed.

Lemma no_calls_snoc ls l :
  no_calls (ls ++ [l]) = true -> no_calls ls = true /\ is_call l = false.
Proof.
  unfold no_calls. rewrite forallb_app. simpl. rewrite andb_true_r.
  intros [? ?]%andb_true_iff. split; [done|]. by apply negb_true_iff.
Qed.

Lemma JoinAll_returns_finalized b s s' e :
  call (JoinAll b) s = Step s' e -> returns_finalized s'.
Proof.
  unfold call, JoinAll, WaitAll. intros H.
  destruct (caller s) eqn:Hc; try done.
  destruct (finished s) eqn:Hf, b; simpl in H;
    try destruct (0 <? jobs_left s)%Z; injection H as <- <-;
    split; simpl; rewrite ?Hc; done.
Qed.

Lemma step_returns_finalized l s s' e :
  is_call l = false -> step l s = Step s' e ->
  returns_finalized s -> returns_finalized s'.
Proof.
  intros Hl H [Hi Hw]. destruct (not_call_cases l Hl) as [Ho| ->].
  - destruct (other_step_frame _ _ _ _ Ho H) as (Hc & Hf & _).
    split; rewrite Hc, ?Hf; done.
  - simpl in H. unfold caller_step in H.
    destruct (caller s) as [|fj| | |k] eqn:Hc; try done.
    + destruct (jobs_left s =? 0)%Z; [|done]. injection H as <- <-.
      destruct fj; done.
    + by injection H as <- <-.
    + by injection H as <- <-.
    + destruct (threads s !! k) as [[]|]; try done; by injection H as <- <-.
Qed.

Lemma Execution_returns_finalized s1 ls s evs :
  Execution s1 ls s evs -> no_calls ls = true ->
  returns_finalized s1 -> returns_finalized s.
Proof.
  induction 1 as [|ls s evs l s' e _ IH Hs]; [done|].
  intros [Hn Hl]%no_calls_snoc H1. eapply step_returns_finalized; eauto.
Qed.

Lemma exec_call l ls s0 s evs :
  exec (l :: ls) s0 [] = Some (s, evs) ->
  exists s1 e evs1,
    step l s0 = Step s1 e /\ evs = e ++ evs1 /\ Execution s1 ls s evs1.
Proof.
  simpl. destruct (step l s0) as [s1 e| |]; try done. intros H.
  apply exec_events in H as (evs1 & -> & H). apply exec_Execution in H. eauto 6.
Qed.

(** C7: a call to [JoinAll] on a finalized pool returns at once: nothing
    changes, nothing is shown (no thread is joined again), and there is no
    fault.  The pool is finalized whenever an earlier call to [JoinAll] has
    returned, so the second of two calls is such a call. *)
Theorem JoinAll_idempotent s b :
  caller s = Idle ->
  (finished s = true \/
   exists s0 b0 ls evs,
     caller s0 = Idle /\ no_calls ls = true /\
     exec (LJoinAll b0 :: ls) s0 [] = Some (s, evs)) ->
  finished s = true /\ step (LJoinAll b) s = Step s [].
Proof.
  intros Hc Hfin.
  assert (finished s = true) as Hf.
  { destruct Hfin as [?|(s0 & b0 & ls & evs & Hc0 & Hn & Hrun)]; [done|].
    apply exec_call in Hrun as (s1 & e & evs1 & Hs & _ & Hex).
    apply JoinAll_returns_finalized in Hs.
    by apply (Execution_returns_finalized _ _ _ _ Hex Hn Hs). }
  split; [done|]. simpl. unfold call, JoinAll. by rewrite Hc, Hf.
Qed.

Lemma JoinAll_idempotent_witness :
  caller pool_joined = Idle /\
  finished pool_joined = true /\
  step (LJoinAll true) pool_joined = Step pool_joined [].
Proof.
  split; [reflexivity|].
  apply (JoinAll_idempotent pool_joined true).
  - reflexivity.
  - right. exists pool_idle, true, sched_join, events_join.
    split; [reflexivity|]. split; reflexivity.
Defined.

(** *** The order of the steps of [JoinAll(true)] *)





(** *** What the caller knows when [WaitAll] returns *)

Lemma step_drained l s s' e :
  step l s = Step s' e -> EvDrained ∈ e ->
  e = [EvDrained] /\ (jobs_left s <= 0)%Z.
Proof.
  intros H Hd. destruct l as [job pick|i|i| |b|]; simpl in H.
  - injection H as <- <-. by apply list_elem_of_singleton in Hd.
  - unfold Task, next_job in H.
    destruct (threads s !! i) as [w|] eqn:Hw; [|done].
    destruct w;
      repeat match type of H with
             | context [if ?b then _ else _] => destruct b eqn:?
             | context [match ?x with _ => _ end] => destruct x eqn:?
             end; try done; injection H as <- <-;
      solve [ by apply elem_of_nil in Hd
            | by apply list_elem_of_singleton in Hd ].
  - unfold spurious_wakeup in H.
    destruct (threads s !! i) as [[]|]; try done. injection H as <- <-.
    by apply elem_of_nil in Hd.
  - unfold call, WaitAll in H.
    destruct (caller s); try done.
    destruct (0 <? jobs_left s)%Z eqn:Hz; injection H as <- <-.
    + by apply elem_of_nil in Hd.
    + split; [done|]. by apply Z.ltb_ge.
  - unfold call, JoinAll, WaitAll in H.
    destruct (caller s); try done.
    destruct (finished s), b; simpl in H;
      try destruct (0 <? jobs_left s)%Z eqn:Hz; injection H as <- <-;
      try (by apply elem_of_nil in Hd).
    split; [done|]. by apply Z.ltb_ge.
  - unfold caller_step in H.
    destruct (caller s) as [|fj| | |k]; try done.
    + destruct (jobs_left s =? 0)%Z eqn:Hz; [|done]. injection H as <- <-.
      split; [done|]. apply Z.eqb_eq in Hz. lia.
    + injection H as <- <-. by apply list_elem_of_singleton in Hd.
    + injection H as <- <-. by apply list_elem_of_singleton in Hd.
    + destruct (threads s !! k) as [[]|]; try done; injection H as <- <-;
        solve [ by apply elem_of_nil in Hd
              | by apply list_elem_of_singleton in Hd ].
Qed.

(** With the counter at 0 nothing is queued and nothing is executing, so
    every job that was submitted has completed. *)
Lemma drained_all_completed n s evs :
  Inv n s -> Hist s evs ->
  (Z.of_nat (length (submitted evs) + n) <= INT_MAX)%Z ->
  (jobs_left s <= 0)%Z ->
  queue s = [] /\ running (threads s) = [] /\ submitted evs ⊆+ completed evs.
Proof.
  intros HI HH Hb Hz.
  pose proof (outstanding_bound _ _ _ HI HH) as Ho.
  rewrite (counter_exact _ _ HI) in Hz by lia.
  assert (outstanding s = 0) as H0 by lia.
  unfold outstanding in H0. rewrite executing_running in H0.
  assert (queue s = []) as Hq by (apply length_zero_iff_nil; lia).
  assert (running (threads s) = []) as Hr by (apply length_zero_iff_nil; lia).
  split; [done|]. split; [done|].
  destruct HH as [Hf Hj]. rewrite Hq, app_nil_r in Hf. rewrite Hr, app_nil_r in Hj.
  rewrite <- Hj, Hf. by apply submseteq_inserts_r.
Qed.

Lemma Execution_drained n ls s evs :
  Execution (ThreadPool n) ls s evs ->
  (Z.of_nat (length (submitted evs) + n) <= INT_MAX)%Z ->
  forall evs1 evs2, evs = evs1 ++ EvDrained :: evs2 ->
    submitted evs1 ⊆+ completed evs1.
Proof.
  induction 1 as [|ls s evs l s' e Hex IH Hs]; intros Hb evs1 evs2 Heq.
  - by destruct evs1.
  - assert (Z.of_nat (length (submitted evs) + n) <= INT_MAX)%Z as Hb'.
    { rewrite submitted_app, length_app in Hb. lia. }
    destruct (decide (EvDrained ∈ e)) as [Hd|Hd].
    + destruct (step_drained _ _ _ _ Hs Hd) as [-> Hz].
      destruct evs2 as [|y evs2 _] using rev_ind.
      * apply app_inj_tail in Heq as [<- _].
        eapply drained_all_completed; eauto using Execution_Inv, Execution_Hist.
      * rewrite app_comm_cons, app_assoc in Heq.
        apply app_inj_tail in Heq as [-> _]. by eapply IH.
    + assert (exists evs2', evs = evs1 ++ EvDrained :: evs2') as [evs2' ->];
        [|by eapply IH].
      clear -Heq Hd. revert evs1 Heq.
      induction evs as [|x evs IHe]; intros evs1 Heq; simpl in *.
      * subst e. destruct Hd. apply elem_of_app. right. by left.
      * destruct evs1 as [|x1 evs1]; simplify_eq/=; [by exists evs|].
        destruct (IHe _ H0) as [evs2' ->]. by exists evs2'.
Qed.

(** *** What each step of the controlling thread does *)







Lemma run_then_exec n ls0 s0 evs0 ls s evs :
  run n ls0 = Some (s0, evs0) -> exec ls s0 [] = Some (s, evs) ->
  run n (ls0 ++ ls) = Some (s, evs0 ++ evs).
Proof.
  unfold run. intros H0 H. rewrite exec_app, H0.
  rewrite <- (app_nil_r evs0) at 1. by rewrite exec_prepend, H.
Qed.




(** * Further properties *)

(** ** The lock of [next_job] *)

(** X1: [job_available_mutex] is owned by exactly the worker that is
    between line 68 and line 91 and not blocked in [wait]: it is owned by
    worker [i] if and only if worker [i] is there, it is free if and only
    if no worker is there, two workers are never there together, and it is
    never owned by a worker that is executing a job, is blocked, or has
    ended. *)
Theorem job_available_mutex_excludes n ls s evs :
  run n ls = Some (s, evs) ->
  (forall i, job_available_mutex s = Some i <->
             exists w, threads s !! i = Some w /\ holds_lock w = true) /\
  (job_available_mutex s = None <->
   forall i w, threads s !! i = Some w -> holds_lock w = false) /\
  (forall i k w x, threads s !! i = Some w -> holds_lock w = true ->
     threads s !! k = Some x -> k <> i -> holds_lock x = false) /\
  (forall i w, job_available_mutex s = Some i -> threads s !! i = Some w ->
     is_running w = false /\ is_blocked w = false /\ has_ended w = false).
Proof.
  intros Hrun. pose proof (run_Inv _ _ _ _ Hrun) as HI.
  pose proof (inv_owner _ _ HI) as Hown.
  split; [done|]. split; [|split].
  - split.
    + intros Hm i w Hw. destruct (holds_lock w) eqn:Hl; [|done].
      assert (job_available_mutex s = Some i) by (apply Hown; eauto). congruence.
    + intros Hno. destruct (job_available_mutex s) as [i|] eqn:Hm; [|done].
      destruct (proj1 (Hown i) eq_refl) as (w & Hw & Hl).
      rewrite (Hno i w Hw) in Hl. done.
  - intros i k w x Hw Hl Hx Hne. destruct (holds_lock x) eqn:Hlx; [|done].
    destruct Hne. symmetry. by eapply owner_unique.
  - intros i w Hm Hw. apply Hown in Hm as (w' & Hw' & Hl).
    rewrite Hw in Hw'. injection Hw' as <-. by destruct w.
Qed.

Lemma job_available_mutex_excludes_witness :
  run 2 sched_contended = Some (pool_contended, []) /\
  (job_available_mutex pool_contended = Some 0 <->
   exists w, threads pool_contended !! 0 = Some w /\ holds_lock w = true) /\
  holds_lock Entering = false.
Proof.
  split; [reflexivity|].
  destruct (job_available_mutex_excludes 2 sched_contended pool_contended [])
    as (Hown & _ & Hexcl & _).
  - reflexivity.
  - split.
    + apply Hown.
    + apply (Hexcl 0 1 Fetching Entering).
      * reflexivity.
      * reflexivity.
      * reflexivity.
      * discriminate.
Defined.

(** X2: no run reaches undefined behaviour.  In particular a worker whose
    [wait] has returned with the flag down finds a job at line 82, and
    takes the head of the queue. *)
Theorem queue_front_is_defined n ls s evs :
  run n ls = Some (s, evs) ->
  (forall l, step l s <> Fault) /\
  (forall i, threads s !! i = Some Woken -> bailout s = false ->
     exists j q, queue s = j :: q /\
       Task i s = Step (set_mutex None (set_queue q (set_worker i (Running j) s)))
                       [EvDequeued i j]).
Proof.
  intros Hrun. pose proof (run_Inv _ _ _ _ Hrun) as HI. split.
  - intros l. by eapply step_no_Fault.
  - intros i Hw Hb. destruct (inv_woken _ _ HI i Hw) as [?|Hq]; [congruence|].
    destruct (queue s) as [|j q] eqn:E; [done|]. exists j, q. split; [done|].
    unfold Task, next_job. by rewrite Hw, Hb, E.
Qed.

Lemma queue_front_is_defined_witness :
  run 1 sched_woken_job = Some (pool_woken_job, [EvSubmitted (UserJob 1)]) /\
  threads pool_woken_job !! 0 = Some Woken /\
  bailout pool_woken_job = false /\
  exists j q,
    queue pool_woken_job = j :: q /\
    Task 0 pool_woken_job
    = Step (set_mutex None
              (set_queue q (set_worker 0 (Running j) pool_woken_job)))
           [EvDequeued 0 j].
Proof.
  split; [reflexivity|]. split; [reflexivity|]. split; [reflexivity|].
  destruct (queue_front_is_defined 1 sched_woken_job pool_woken_job
              [EvSubmitted (UserJob 1)]) as [_ Hfront].
  - reflexivity.
  - apply (Hfront 0).
    + reflexivity.
    + reflexivity.
Defined.

(** ** The counter, whatever its size *)

(** X14: in every reachable state the counter is the number of queued
    plus executing jobs reduced to a 32-bit [int]: it is exact below 2^31,
    and it is negative when 2^31 jobs are outstanding. *)
Theorem jobs_left_is_the_wrapped_count n ls s evs :
  run n ls = Some (s, evs) ->
  jobs_left s = wrap (Z.of_nat (outstanding s)) /\
  in_range (jobs_left s) /\
  (Z.of_nat (outstanding s) = 2147483648%Z -> jobs_left s = INT_MIN).
Proof.
  intros Hrun. pose proof (inv_counter _ _ (run_Inv _ _ _ _ Hrun)) as Hc.
  split; [done|]. split.
  - rewrite Hc. apply wrap_in_range.
  - intros Ho. rewrite Hc, Ho. reflexivity.
Qed.

Lemma jobs_left_is_the_wrapped_count_witness :
  run 1 sched_busy = Some (pool_busy, events_busy) /\
  jobs_left pool_busy = wrap (Z.of_nat (outstanding pool_busy)).
Proof.
  split; [reflexivity|].
  destruct (jobs_left_is_the_wrapped_count 1 sched_busy pool_busy events_busy)
    as [Hc _].
  - reflexivity.
  - exact Hc.
Defined.

(** ** The flags *)

Lemma step_flags l s s' e :
  step l s = Step s' e ->
  (bailout s = true -> bailout s' = true) /\
  (finished s = true -> finished s' = true).
Proof.
  intros H. destruct (is_call l) eqn:Hl.
  - destruct l as [job pick|i|i| |b|]; try done; simpl in H.
    + unfold call, WaitAll in H. destruct (caller s); try done.
      by destruct (0 <? jobs_left s)%Z; injection H as <- <-.
    + unfold call, JoinAll, WaitAll in H. destruct (caller s); try done.
      by destruct (finished s) eqn:Hf, b; simpl in H;
        try destruct (0 <? jobs_left s)%Z; injection H as <- <-.
  - destruct (not_call_cases l Hl) as [Ho| ->].
    + destruct (other_step_frame _ _ _ _ Ho H) as (_ & -> & -> & _). done.
    + simpl in H. unfold caller_step in H.
      destruct (caller s) as [|fj| | |k]; try done.
      * destruct (jobs_left s =? 0)%Z; [|done]. by injection H as <- <-.
      * by injection H as <- <-.
      * by injection H as <- <-.
      * by destruct (threads s !! k) as [[]|]; try done; injection H as <- <-.
Qed.

(** X3: [bailout] and [finished] are one-way: whatever the threads do,
    a flag that is up stays up, and [finished] is never up without
    [bailout]. *)
Theorem flags_are_one_way n ls0 s0 evs0 ls s evs :
  run n ls0 = Some (s0, evs0) ->
  exec ls s0 [] = Some (s, evs) ->
  (bailout s0 = true -> bailout s = true) /\
  (finished s0 = true -> finished s = true) /\
  (finished s = true -> bailout s = true).
Proof.
  intros Hrun0 Hrun. split; [|split].
  - apply exec_Execution in Hrun.
    induction Hrun as [|ls s evs l s' e _ IH Hs]; [done|].
    intros Hb. by apply (step_flags _ _ _ _ Hs), IH.
  - apply exec_Execution in Hrun.
    induction Hrun as [|ls s evs l s' e _ IH Hs]; [done|].
    intros Hb. by apply (step_flags _ _ _ _ Hs), IH.
  - intros Hf. pose proof (run_then_exec _ _ _ _ _ _ _ Hrun0 Hrun) as Hfull.
    pose proof (run_CallInv _ _ _ _ Hfull) as HC.
    rewrite (call_bailout _ HC). unfold flag_raised.
    by destruct (call_finished _ HC Hf) as [-> | ->].
Qed.

Lemma flags_are_one_way_witness :
  run 1 sched_drop = Some (pool_dropped, events_dropped) /\
  exec [LAddJob (UserJob 3) 0; LJoinAll true] pool_dropped []
  = Some (AddJob (UserJob 3) 0 pool_dropped, [EvSubmitted (UserJob 3)]) /\
  (finished pool_dropped = true ->
   finished (AddJob (UserJob 3) 0 pool_dropped) = true).
Proof.
  split; [reflexivity|]. split; [reflexivity|].
  destruct (flags_are_one_way 1 sched_drop pool_dropped events_dropped
              [LAddJob (UserJob 3) 0; LJoinAll true]
              (AddJob (UserJob 3) 0 pool_dropped) [EvSubmitted (UserJob 3)])
    as (_ & Hf & _).
  - reflexivity.
  - reflexivity.
  - exact Hf.
Defined.

(** ** The end of a worker *)

Lemma count_cons (f : Worker -> bool) w ws :
  length (filter (fun w => f w = true) (w :: ws))
  = (if f w then 1 else 0) + length (filter (fun w => f w = true) ws).
Proof.
  rewrite filter_cons. destruct (f w) eqn:E; case_decide; simpl; congruence.
Qed.

Lemma count_insert (f : Worker -> bool) (ws : list Worker) (i : nat) w w' :
  ws !! i = Some w ->
  length (filter (fun w => f w = true) (<[i:=w']> ws)) + (if f w then 1 else 0)
  = length (filter (fun w => f w = true) ws) + (if f w' then 1 else 0).
Proof.
  revert i. induction ws as [|a ws IH]; intros i Hi; [done|].
  destruct i as [|i].
  - injection Hi as ->. change (<[0:=w']> (w :: ws)) with (w' :: ws).
    rewrite !count_cons. lia.
  - change (<[S i:=w']> (a :: ws)) with (a :: <[i:=w']> ws).
    change (ws !! i = Some w) in Hi.
    rewrite !count_cons. specialize (IH _ Hi). lia.
Qed.

Lemma count_woke (f : Worker -> bool) ws ws' :
  woke ws ws' -> f Notified = f Blocked ->
  length (filter (fun w => f w = true) ws')
  = length (filter (fun w => f w = true) ws).
Proof.
  intros H Hf. induction H as [|w w' ws ws' Hw _ IH]; [done|].
  rewrite !count_cons, IH. by destruct Hw as [->|[-> ->]]; rewrite ?Hf.
Qed.

Lemma count_le (f : Worker -> bool) ws :
  length (filter (fun w => f w = true) ws) <= length ws.
Proof. apply length_filter. Qed.

(** What one move of a worker does to the workers that are spent. *)
Lemma Task_spent i s s' e :
  Task i s = Step s' e ->
  exists w w',
    threads s !! i = Some w /\ threads s' = <[i:=w']> (threads s) /\
    bailout s' = bailout s /\
    (bailout s = true ->
     (if is_spent w then 1 else 0) + length (injected e)
     <= (if is_spent w' then 1 else 0)) /\
    (bailout s = false -> injected e = [] /\ has_ended w' = false).
Proof.
  unfold Task, next_job. intros H.
  destruct (threads s !! i) as [w|] eqn:Hw; [|done].
  destruct w;
    repeat match type of H with
           | context [if ?b then _ else _] => destruct b eqn:?
           | context [match ?x with _ => _ end] => destruct x eqn:?
           end; try done; injection H as <- <-; simpl;
    eexists _, _; (split; [done|]); (split; [done|]); (split; [done|]);
    (split; intros Hb; simpl; try done; try lia;
     try (rewrite Hb in *; done)).
Qed.

Lemma spent_set_threads s ws' :
  length (filter (fun w => is_spent w = true) ws')
  = length (filter (fun w => is_spent w = true) (threads s)) ->
  spent (set_threads ws' s) = spent s.
Proof. unfold spent. simpl. by intros ->. Qed.

Lemma step_SpentInv l s s' e evs :
  SpentInv s evs -> step l s = Step s' e -> SpentInv s' (evs ++ e).
Proof.
  intros [He Hi] H. destruct l as [job pick|i|i| |b|]; simpl in H.
  - injection H as <- <-. pose proof (notify_one_woke pick (threads s)) as Hw.
    split; simpl.
    + intros Hb k w Hk.
      destruct (woke_lookup _ _ _ _ Hw Hk) as [?|[_ ->]]; [by eapply He|done].
    + rewrite injected_app, app_nil_r. unfold spent in *. simpl.
      by rewrite (count_woke is_spent _ _ Hw).
  - destruct (Task_spent _ _ _ _ H) as (w & w' & Hw & Ht & Hb & Hup & Hdown).
    pose proof (count_insert is_spent _ _ _ w' Hw) as Hc.
    split.
    + rewrite Hb, Ht. intros Hf k x Hk.
      apply list_lookup_insert_Some in Hk as [(-> & <- & _)|[_ Hk]].
      * by apply Hdown.
      * by eapply He.
    + rewrite injected_app, length_app. unfold spent in *. rewrite Hb, Ht.
      destruct (bailout s) eqn:Hbs.
      * specialize (Hup eq_refl). lia.
      * destruct (Hdown eq_refl) as [-> _]. simpl. lia.
  - unfold spurious_wakeup in H.
    destruct (threads s !! i) as [[]|] eqn:Hw; try done. injection H as <- <-.
    pose proof (woke_insert _ _ Hw) as Hwk. split; simpl.
    + intros Hb k w Hk.
      destruct (woke_lookup _ _ _ _ Hwk Hk) as [?|[_ ->]]; [by eapply He|done].
    + rewrite injected_app, app_nil_r. unfold spent in *. simpl.
      by rewrite (count_woke is_spent _ _ Hwk).
  - unfold call, WaitAll in H. destruct (caller s); try done.
    destruct (0 <? jobs_left s)%Z; injection H as <- <-; split;
      rewrite ?injected_app, ?app_nil_r; done.
  - unfold call, JoinAll, WaitAll in H. destruct (caller s); try done.
    destruct (finished s), b; simpl in H;
      try destruct (0 <? jobs_left s)%Z; injection H as <- <-; split;
      rewrite ?injected_app, ?app_nil_r; done.
  - unfold caller_step in H.
    destruct (caller s) as [|fj| | |k]; try done.
    + destruct (jobs_left s =? 0)%Z; [|done]. injection H as <- <-.
      split; rewrite ?injected_app, ?app_nil_r; done.
    + injection H as <- <-. split; simpl; [done|].
      rewrite injected_app, app_nil_r. unfold spent in *. simpl.
      destruct (bailout s); lia.
    + injection H as <- <-. pose proof (notify_all_woke (threads s)) as Hw.
      split; simpl.
      * intros Hb k w Hk.
        destruct (woke_lookup _ _ _ _ Hw Hk) as [?|[_ ->]]; [by eapply He|done].
      * rewrite injected_app, app_nil_r. unfold spent in *. simpl.
        by rewrite (count_woke is_spent _ _ Hw).
    + destruct (threads s !! k) as [w|] eqn:Hw.
      * destruct w; try done; injection H as <- <-; split; simpl;
          rewrite ?injected_app, ?app_nil_r; try done.
        -- intros Hb j x Hj.
           pose proof (He Hb k _ Hw). done.
        -- pose proof (count_insert is_spent _ _ _ Joined Hw) as Hc.
           unfold spent in *. simpl in *. destruct (bailout s); lia.
      * injection H as <- <-. split; rewrite ?injected_app, ?app_nil_r; done.
Qed.

Lemma SpentInv_init n : SpentInv (ThreadPool n) [].
Proof.
  split; simpl; [|lia].
  intros _ i w Hw. by apply lookup_replicate in Hw as [-> _].
Qed.

Lemma run_SpentInv n ls s evs : run n ls = Some (s, evs) -> SpentInv s evs.
Proof.
  intros H. apply exec_Execution in H.
  induction H as [|ls s evs l s' e _ IH Hs]; [apply SpentInv_init|].
  by eapply step_SpentInv.
Qed.

(** X4: no worker thread ends while the flag is down: until [JoinAll]
    raises [bailout], all [ThreadCount] workers stay in the loop of
    [Task]. *)
Theorem workers_end_only_under_bailout n ls s evs i w :
  run n ls = Some (s, evs) ->
  threads s !! i = Some w ->
  has_ended w = true ->
  bailout s = true.
Proof.
  intros Hrun Hw He. destruct (bailout s) eqn:Hb; [done|].
  pose proof (spent_ended _ _ (run_SpentInv _ _ _ _ Hrun) Hb i w Hw). congruence.
Qed.

Lemma workers_end_only_under_bailout_witness :
  run 1 sched_drop = Some (pool_dropped, events_dropped) /\
  bailout pool_dropped = true.
Proof.
  split; [reflexivity|].
  apply (workers_end_only_under_bailout 1 sched_drop pool_dropped
           events_dropped 0 Joined).
  - reflexivity.
  - reflexivity.
  - reflexivity.
Defined.

Lemma injected_bound n ls s evs :
  run n ls = Some (s, evs) ->
  length (injected evs) <= n /\
  (bailout s = false -> injected evs = []).
Proof.
  intros Hrun. pose proof (spent_injected _ _ (run_SpentInv _ _ _ _ Hrun)) as Hi.
  pose proof (inv_threads _ _ (run_Inv _ _ _ _ Hrun)) as Hn.
  unfold spent in Hi. split.
  - destruct (bailout s); [|lia].
    pose proof (count_le is_spent (threads s)). lia.
  - intros Hb. rewrite Hb in Hi. apply length_zero_iff_nil. lia.
Qed.

(** X5: the no-op of line 86 is built only under the flag, and at most
    once by each worker: a run shows at most [ThreadCount] of them. *)
Theorem one_compensation_per_worker n ls s evs :
  run n ls = Some (s, evs) ->
  length (injected evs) <= n /\
  (bailout s = false -> injected evs = []).
Proof. apply injected_bound. Qed.

Lemma one_compensation_per_worker_witness :
  run 1 (sched_idle ++ LJoinAll true :: sched_join)
  = Some (pool_joined, events_join) /\
  length (injected events_join) <= 1.
Proof.
  split; [reflexivity|].
  destruct (one_compensation_per_worker 1 (sched_idle ++ LJoinAll true :: sched_join)
              pool_joined events_join) as [Hle _].
  - reflexivity.
  - exact Hle.
Defined.

(** ** [WaitAll] *)

Lemma Execution_run n ls s evs :
  Execution (ThreadPool n) ls s evs -> run n ls = Some (s, evs).
Proof. intros H. by apply exec_Execution. Qed.

(** X6: whenever a call to [WaitAll] returns -- on its own or inside
    [JoinAll] -- the queue is empty, no worker holds a job, the counter is
    0, and the jobs that have completed are the jobs that were submitted,
    each once, and the no-ops. *)
Theorem WaitAll_returns_when_nothing_is_left n ls s evs evs1 evs2 :
  run n ls = Some (s, evs) ->
  evs = evs1 ++ EvDrained :: evs2 ->
  (Z.of_nat (length (submitted evs1) + n) <= INT_MAX)%Z ->
  exists ls1 s1,
    run n ls1 = Some (s1, evs1) /\
    queue s1 = [] /\ running (threads s1) = [] /\ jobs_left s1 = 0%Z /\
    completed evs1 ≡ₚ submitted evs1 ++ injected evs1.
Proof.
  intros Hrun Heq Hb. apply exec_Execution in Hrun.
  destruct (Execution_event_origin _ _ _ _ _ _ _ Hrun Heq)
    as (ls1 & s1 & l & s1' & Hex & Hs).
  destruct (step_drained _ _ _ _ Hs) as [_ Hz]; [by left|].
  pose proof (Execution_Inv _ _ _ _ Hex) as HI.
  pose proof (Execution_Hist _ _ _ _ Hex) as HH.
  destruct (drained_all_completed _ _ _ HI HH Hb Hz) as (Hq & Hr & _).
  exists ls1, s1. split; [by apply Execution_run|].
  split; [done|]. split; [done|]. split.
  - rewrite (counter_exact _ _ HI); unfold outstanding;
      rewrite Hq, executing_running, Hr; simpl; [done|].
    unfold INT_MAX. lia.
  - destruct HH as [Hf Hj]. rewrite Hq, app_nil_r in Hf.
    rewrite Hr, app_nil_r in Hj. by rewrite Hf, Hj.
Qed.

Lemma WaitAll_returns_when_nothing_is_left_witness :
  run 1 sched_busy = Some (pool_busy, events_busy) /\
  exists ls1 s1,
    run 1 ls1
    = Some (s1, [EvSubmitted (UserJob 1); EvSubmitted (UserJob 2);
                 EvDequeued 0 (UserJob 1); EvCompleted 0 (UserJob 1);
                 EvDequeued 0 (UserJob 2); EvCompleted 0 (UserJob 2)]) /\
    queue s1 = [] /\ jobs_left s1 = 0%Z.
Proof.
  split; [reflexivity|].
  destruct (WaitAll_returns_when_nothing_is_left 1
              (sched_busy ++ [LWork 0; LWaitAll; LWork 0; LWork 0; LWork 0;
                              LWork 0; LCaller])
              {| threads := [AtGuard]; queue := []; jobs_left := 0;
                 bailout := false; finished := false;
                 job_available_mutex := None; caller := Idle |}
              [EvSubmitted (UserJob 1); EvSubmitted (UserJob 2);
               EvDequeued 0 (UserJob 1); EvCompleted 0 (UserJob 1);
               EvDequeued 0 (UserJob 2); EvCompleted 0 (UserJob 2); EvDrained]
              [EvSubmitted (UserJob 1); EvSubmitted (UserJob 2);
               EvDequeued 0 (UserJob 1); EvCompleted 0 (UserJob 1);
               EvDequeued 0 (UserJob 2); EvCompleted 0 (UserJob 2)]
              [])
    as (ls1 & s1 & H1 & Hq & _ & Hc & _).
  - reflexivity.
  - reflexivity.
  - vm_compute. discriminate.
  - exists ls1, s1. split; [exact H1|]. split; [exact Hq|exact Hc].
Defined.




(** ** Destruction *)

Lemma no_submissions_snoc ls l :
  no_submissions (ls ++ [l]) = true ->
  no_submissions ls = true /\ is_submission l = false.
Proof.
  unfold no_submissions. rewrite forallb_app. simpl. rewrite andb_true_r.
  intros [? ?]%andb_true_iff. split; [done|]. by apply negb_true_iff.
Qed.

(** Only [AddJob] lets the queue grow. *)
Lemma step_queue_shrinks l s s' e :
  is_submission l = false -> step l s = Step s' e ->
  submitted e = [] /\ queue s = dequeued e ++ queue s'.
Proof.
  intros Hl H. assert (submitted e = []) as Hsub.
  { destruct l as [job pick|i|i| |b|]; try done; simpl in H.
    - by apply Task_fifo in H as [? _].
    - unfold spurious_wakeup in H.
      destruct (threads s !! i) as [[]|]; try done. by injection H as <- <-.
    - unfold call, WaitAll in H. destruct (caller s); try done.
      by destruct (0 <? jobs_left s)%Z; injection H as <- <-.
    - unfold call, JoinAll, WaitAll in H. destruct (caller s); try done.
      by destruct (finished s), b; simpl in H;
        try destruct (0 <? jobs_left s)%Z; injection H as <- <-.
    - unfold caller_step in H.
      destruct (caller s) as [|fj| | |k]; try done.
      + destruct (jobs_left s =? 0)%Z; [|done]. by injection H as <- <-.
      + by injection H as <- <-.
      + by injection H as <- <-.
      + by destruct (threads s !! k) as [[]|]; try done; injection H as <- <-. }
  split; [done|]. apply step_fifo in H. by rewrite Hsub, app_nil_r in H.
Qed.

(** Once the wait of [JoinAll(true)] is over, and as long as nothing is
    submitted, the queue is empty. *)
Lemma drained_fragment n s1 ls s evs1 evsA :
  Execution s1 ls s evs1 ->
  no_calls ls = true -> no_submissions ls = true ->
  Inv n s1 -> Hist s1 evsA ->
  (Z.of_nat (length (submitted evsA) + n) <= INT_MAX)%Z ->
  caller s1 = InWaitAll true \/ queue s1 = [] ->
  Inv n s /\ Hist s (evsA ++ evs1) /\ submitted evs1 = [] /\
  (caller s = InWaitAll true \/ queue s = []).
Proof.
  intros Hex. induction Hex as [|ls s evs l s' e _ IH Hs];
    intros Hnc Hns HI HH Hb HQ.
  - by rewrite app_nil_r.
  - apply no_calls_snoc in Hnc as [Hnc Hl].
    apply no_submissions_snoc in Hns as [Hns Hl'].
    destruct (IH Hnc Hns HI HH Hb HQ) as (HI' & HH' & Hsub & HQ'). clear IH.
    destruct (step_queue_shrinks _ _ _ _ Hl' Hs) as [Hse Hq].
    split; [by eapply step_Inv|]. split.
    { rewrite app_assoc. by eapply step_Hist. }
    split; [by rewrite submitted_app, Hsub, Hse|].
    destruct (not_call_cases l Hl) as [Ho| ->].
    + destruct (other_step_frame _ _ _ _ Ho Hs) as (Hc & _).
      rewrite Hc. destruct HQ' as [?|Hnil]; [by left|right].
      rewrite Hnil in Hq. symmetry in Hq. by apply app_eq_nil in Hq as [_ ?].
    + right. simpl in Hs. unfold caller_step in Hs.
      assert (queue s = []) as Hnil.
      { destruct HQ' as [Hw|?]; [|done]. rewrite Hw in Hs.
        destruct (jobs_left s =? 0)%Z eqn:Hz; [|done]. apply Z.eqb_eq in Hz.
        eapply (drained_all_completed n s (evsA ++ evs)); eauto.
        - by rewrite submitted_app, Hsub, app_nil_r.
        - lia. }
      rewrite Hnil in Hq. symmetry in Hq. by apply app_eq_nil in Hq as [_ ?].
Qed.

(** X8: destruction runs every job.  When the destructor of a pool that
    is not finalized has returned, and nothing was submitted meanwhile,
    every thread has been joined, the queue is empty, the counter and
    [JobsRemaining()] are 0, and the jobs that have completed are the jobs
    that were submitted, each once, and the no-ops. *)
Theorem destructor_runs_every_job n ls0 s0 evs0 s1 e0 ls s evs1 :
  run n ls0 = Some (s0, evs0) ->
  finished s0 = false ->
  call destructor s0 = Step s1 e0 ->
  no_calls ls = true ->
  no_submissions ls = true ->
  exec ls s1 [] = Some (s, evs1) ->
  caller s = Idle ->
  (Z.of_nat (length (submitted evs0) + n) <= INT_MAX)%Z ->
  finished s = true /\
  (forall i w, threads s !! i = Some w -> w = Joined) /\
  queue s = [] /\ jobs_left s = 0%Z /\ JobsRemaining s = 0%Z /\
  completed (evs0 ++ e0 ++ evs1)
  ≡ₚ submitted evs0 ++ injected (evs0 ++ e0 ++ evs1).
Proof.
  intros Hrun0 Hf0 Hcall Hnc Hns Hrun Hidle Hb.
  change (step (LJoinAll true) s0 = Step s1 e0) in Hcall.
  apply exec_Execution in Hrun0, Hrun.
  pose proof (Execution_Inv _ _ _ _ Hrun0) as HI0.
  pose proof (Execution_Hist _ _ _ _ Hrun0) as HH0.
  pose proof (Execution_CallInv _ _ _ _ Hrun0) as HC0.
  assert (Execution (ThreadPool n) (ls0 ++ [LJoinAll true]) s1 (evs0 ++ e0)) as Hex1
    by (by econstructor).
  pose proof (Execution_Inv _ _ _ _ Hex1) as HI1.
  pose proof (Execution_Hist _ _ _ _ Hex1) as HH1.
  assert (submitted e0 = [] /\ (caller s1 = InWaitAll true \/ queue s1 = []))
    as [Hs0 HQ1].
  { simpl in Hcall. unfold call, JoinAll, WaitAll in Hcall.
    destruct (caller s0); try done. rewrite Hf0 in Hcall. simpl in Hcall.
    destruct (0 <? jobs_left s0)%Z eqn:Hz; injection Hcall as <- <-; simpl;
      (split; [done|]); [by left|right].
    apply Z.ltb_ge in Hz. by eapply (drained_all_completed n s0 evs0). }
  destruct (drained_fragment n _ _ _ _ (evs0 ++ e0) Hrun Hnc Hns HI1 HH1)
    as (HI & HH & Hsub & HQ); [by rewrite submitted_app, Hs0, app_nil_r|done|].
  pose proof (Execution_CallInv _ _ _ _ (Execution_trans _ _ _ _ _ _ _ Hex1 Hrun)) as HC.
  pose proof (JoinAll_returns_finalized _ _ _ _ Hcall) as Hr1.
  destruct (Execution_returns_finalized _ _ _ _ Hrun Hnc Hr1) as [Hfin _].
  specialize (Hfin Hidle).
  assert (forall i w, threads s !! i = Some w -> w = Joined) as Hall
    by (intros i w; by apply finalized_threads_joined).
  assert (queue s = []) as Hq.
  { destruct HQ as [Hw|?]; [|done]. by rewrite Hidle in Hw. }
  pose proof (all_joined_running _ Hall) as Hr.
  split; [done|]. split; [done|]. split; [done|].
  assert (jobs_left s = 0%Z) as Hz.
  { rewrite (inv_counter _ _ HI). unfold outstanding.
    by rewrite Hq, executing_running, Hr. }
  split; [done|]. split.
  - unfold JobsRemaining. by rewrite Hq.
  - destruct HH as [Hfifo Hjobs]. rewrite <- !app_assoc in Hfifo, Hjobs.
    rewrite Hq, app_nil_r in Hfifo. rewrite Hr, app_nil_r in Hjobs.
    rewrite <- Hjobs, <- Hfifo.
    by rewrite !submitted_app, Hs0, Hsub, !app_nil_r.
Qed.

Lemma destructor_runs_every_job_witness :
  run 1 sched_busy = Some (pool_busy, events_busy) /\
  call destructor pool_busy = Step (set_caller (InWaitAll true) pool_busy) [] /\
  exec sched_destroy (set_caller (InWaitAll true) pool_busy) []
  = Some (pool_joined, events_destroy) /\
  completed (events_busy ++ [] ++ events_destroy)
  ≡ₚ submitted events_busy ++ injected (events_busy ++ [] ++ events_destroy).
Proof.
  split; [reflexivity|]. split; [reflexivity|]. split; [reflexivity|].
  destruct (destructor_runs_every_job 1 sched_busy pool_busy events_busy
              (set_caller (InWaitAll true) pool_busy) []
              sched_destroy pool_joined events_destroy)
    as (_ & _ & _ & _ & _ & Hperm).
  - reflexivity.
  - reflexivity.
  - reflexivity.
  - reflexivity.
  - reflexivity.
  - reflexivity.
  - reflexivity.
  - vm_compute. discriminate.
  - exact Hperm.
Defined.

(** ** [JoinAll(false)] in any run *)



(** ** After the finalization *)

(** X10: a finalized pool runs nothing any more.  Whatever happens after
    [JoinAll] has returned, no job is taken from the queue and none
    completes; the jobs that are submitted are appended to the queue and
    stay there, and the counter counts the jobs in the queue. *)
Theorem finalized_pool_runs_nothing n ls0 s0 evs0 ls s evs :
  run n ls0 = Some (s0, evs0) ->
  finished s0 = true ->
  exec ls s0 [] = Some (s, evs) ->
  finished s = true /\
  dequeued evs = [] /\ completed evs = [] /\
  queue s = queue s0 ++ submitted evs /\
  jobs_left s = wrap (Z.of_nat (length (queue s))).
Proof.
  intros Hrun0 Hf0 Hrun. apply exec_Execution in Hrun.
  assert (finished s = true /\ dequeued evs = [] /\ completed evs = [] /\
          queue s = queue s0 ++ submitted evs) as (Hf & Hd & Hc & Hq).
  { induction Hrun as [|ls s evs l s' e Hex IH Hs].
    - by rewrite app_nil_r.
    - destruct IH as (Hf & Hd & Hc & Hq).
      pose proof (run_then_exec _ _ _ _ _ _ _ Hrun0
                    (proj2 (exec_Execution _ _ _ _) Hex)) as Hmid.
      destruct (finalized_pool_is_still _ _ _ _ _ _ _ Hmid Hf Hs)
        as (Hf' & Hd' & Hc' & _).
      apply step_fifo in Hs. rewrite Hd' in Hs. simpl in Hs.
      rewrite dequeued_app, completed_app, submitted_app, Hd, Hc, Hd', Hc', Hs, Hq.
      by rewrite app_assoc. }
  split; [done|]. split; [done|]. split; [done|]. split; [done|].
  pose proof (run_then_exec _ _ _ _ _ _ _ Hrun0
                (proj2 (exec_Execution _ _ _ _) Hrun)) as Hfull.
  pose proof (run_Inv _ _ _ _ Hfull) as HI.
  pose proof (run_CallInv _ _ _ _ Hfull) as HC.
  rewrite (inv_counter _ _ HI). unfold outstanding.
  rewrite executing_running, all_joined_running; [by rewrite Nat.add_0_r|].
  intros i w. by apply finalized_threads_joined.
Qed.

Lemma finalized_pool_runs_nothing_witness :
  run 1 sched_drop = Some (pool_dropped, events_dropped) /\
  exec [LAddJob (UserJob 3) 0; LJoinAll true] pool_dropped []
  = Some (AddJob (UserJob 3) 0 pool_dropped, [EvSubmitted (UserJob 3)]) /\
  queue (AddJob (UserJob 3) 0 pool_dropped)
  = queue pool_dropped ++ submitted [EvSubmitted (UserJob 3)].
Proof.
  split; [reflexivity|]. split; [reflexivity|].
  destruct (finalized_pool_runs_nothing 1 sched_drop pool_dropped events_dropped
              [LAddJob (UserJob 3) 0; LJoinAll true]
              (AddJob (UserJob 3) 0 pool_dropped) [EvSubmitted (UserJob 3)])
    as (_ & _ & _ & Hq & _).
  - reflexivity.
  - reflexivity.
  - reflexivity.
  - exact Hq.
Defined.

(** ** Notifications that find nobody *)

(** X12: [AddJob] notifies without holding [job_available_mutex], so a
    worker that has found its predicate false and has not blocked yet does
    not see the notification: it blocks although the job is in the queue,
    and does not move until something else wakes it. *)
Theorem AddJob_notification_is_lost s i job pick :
  threads s !! i = Some Parking ->
  exists s',
    exec [LAddJob job pick; LWork i] s [] = Some (s', [EvSubmitted job]) /\
    threads s' !! i = Some Blocked /\
    queue s' = queue s ++ [job] /\
    Task i s' = Wait.
Proof.
  intros Hw. pose proof (lookup_lt_Some _ _ _ Hw) as Hlt.
  pose proof (notify_one_woke pick (threads s)) as Hwk.
  assert (threads (AddJob job pick s) !! i = Some Parking) as Hw'.
  { simpl. destruct (woke_lookup_l _ _ _ _ Hwk Hw) as [?|[? _]]; done. }
  eexists. split; [|split; [|split]].
  - simpl. unfold Task, next_job. rewrite Hw'. reflexivity.
  - simpl. rewrite list_lookup_insert_eq; [done|].
    by rewrite (woke_length _ _ Hwk).
  - done.
  - unfold Task. simpl. rewrite list_lookup_insert_eq; [done|].
    by rewrite (woke_length _ _ Hwk).
Qed.

Lemma AddJob_notification_is_lost_witness :
  run 1 sched_parking = Some (pool_parking, []) /\
  threads pool_parking !! 0 = Some Parking /\
  exists s',
    exec [LAddJob (UserJob 1) 0; LWork 0] pool_parking []
    = Some (s', [EvSubmitted (UserJob 1)]) /\
    threads s' !! 0 = Some Blocked /\
    queue s' = queue pool_parking ++ [UserJob 1] /\
    Task 0 s' = Wait.
Proof.
  split; [reflexivity|]. split; [reflexivity|].
  apply (AddJob_notification_is_lost pool_parking 0 (UserJob 1) 0).
  reflexivity.
Defined.

(** X13: the same happens to the broadcast of [JoinAll]: a worker that
    has found its predicate false before the flag went up, and blocks
    after the broadcast, sleeps under the raised flag; the loop of
    [JoinAll] does not get past a thread that is blocked. *)
Theorem JoinAll_broadcast_is_lost s i :
  threads s !! i = Some Parking ->
  caller s = RaiseBailout ->
  exists s',
    exec [LCaller; LCaller; LWork i] s [] = Some (s', [EvBailout; EvBroadcast]) /\
    threads s' !! i = Some Blocked /\
    bailout s' = true /\
    Task i s' = Wait /\
    forall s2, caller s2 = Joining i -> threads s2 !! i = Some Blocked ->
      step LCaller s2 = Wait.
Proof.
  intros Hw Hc. pose proof (lookup_lt_Some _ _ _ Hw) as Hlt.
  pose proof (notify_all_woke (threads s)) as Hwk.
  assert (notify_all (threads s) !! i = Some Parking) as Hw'.
  { destruct (woke_lookup_l _ _ _ _ Hwk Hw) as [?|[? _]]; done. }
  eexists. split; [|split; [|split; [|split]]].
  - simpl. unfold caller_step. rewrite Hc. simpl.
    unfold Task, next_job. simpl. rewrite Hw'. reflexivity.
  - simpl. rewrite list_lookup_insert_eq; [done|].
    by rewrite (woke_length _ _ Hwk).
  - done.
  - unfold Task. simpl. rewrite list_lookup_insert_eq; [done|].
    by rewrite (woke_length _ _ Hwk).
  - intros s2 Hc2 Hw2. simpl. unfold caller_step. by rewrite Hc2, Hw2.
Qed.

Lemma JoinAll_broadcast_is_lost_witness :
  run 1 (sched_parking ++ [LJoinAll false]) = Some (pool_parking_shutdown, []) /\
  exists s',
    exec [LCaller; LCaller; LWork 0] pool_parking_shutdown []
    = Some (s', [EvBailout; EvBroadcast]) /\
    threads s' !! 0 = Some Blocked /\
    bailout s' = true /\
    Task 0 s' = Wait /\
    forall s2, caller s2 = Joining 0 -> threads s2 !! 0 = Some Blocked ->
      step LCaller s2 = Wait.
Proof.
  split; [reflexivity|].
  apply (JoinAll_broadcast_is_lost pool_parking_shutdown 0).
  - reflexivity.
  - reflexivity.
Defined.

(** ** Where the jobs are *)

(** X15: no job is lost, made up or run twice.  In every run the jobs
    that were submitted, together with the no-ops, are exactly the jobs that
    have completed, the jobs that workers are executing, and the jobs in
    the queue, each counted once. *)
Theorem every_job_is_in_one_place n ls s evs :
  run n ls = Some (s, evs) ->
  submitted evs ++ injected evs
  ≡ₚ completed evs ++ running (threads s) ++ queue s.
Proof.
  intros Hrun. destruct (run_Hist _ _ _ _ Hrun) as [Hf Hj].
  rewrite Hf. transitivity ((dequeued evs ++ injected evs) ++ queue s).
  - rewrite <- !app_assoc. f_equiv. apply Permutation_app_comm.
  - by rewrite Hj, <- app_assoc.
Qed.

Lemma every_job_is_in_one_place_witness :
  run 1 sched_busy = Some (pool_busy, events_busy) /\
  submitted events_busy ++ injected events_busy
  ≡ₚ completed events_busy ++ running (threads pool_busy) ++ queue pool_busy.
Proof.
  split; [reflexivity|].
  apply (every_job_is_in_one_place 1 sched_busy pool_busy events_busy).
  reflexivity.
Defined.

(** ** One worker *)

Lemma handed_app evs1 evs2 : handed (evs1 ++ evs2) = handed evs1 ++ handed evs2.
Proof. apply omap_app. Qed.

Lemma handed_short e :
  e = [] \/ (exists x, e = [x]) ->
  handed e = dequeued e ++ injected e /\
  (handed e = [] \/ completed e = []) /\
  length (handed e) <= 1 /\ length (completed e) <= 1.
Proof.
  intros [->|[x ->]]; [simpl; auto|].
  destruct x; simpl; repeat split; auto.
Qed.

Lemma handed_no_injected evs : injected evs = [] -> handed evs = dequeued evs.
Proof.
  induction evs as [|x evs IH]; [done|].
  change (x :: evs) with ([x] ++ evs).
  rewrite injected_app, handed_app, dequeued_app.
  intros [H1 H2]%app_eq_nil. rewrite (IH H2). f_equal.
  by destruct x.
Qed.

(** With at most one job in flight the multiset equation of the jobs is an
    equation of lists. *)
Lemma in_order_of_one (a h c d : list Job) :
  h ++ a ≡ₚ c ++ d ->
  length a <= 1 -> length d <= 1 -> length h <= 1 -> length c <= 1 ->
  h = [] \/ c = [] ->
  a ++ h = c ++ d.
Proof.
  intros Hp Ha Hd Hh Hc Hor. pose proof (Permutation_length Hp) as Hl.
  rewrite !length_app in Hl.
  destruct a as [|x [|? ?]], h as [|y [|? ?]], c as [|z [|? ?]],
        d as [|u [|? ?]]; simpl in *; try lia; try done;
    try (by destruct Hor);
    try (apply Permutation_singleton_inj in Hp; by subst).
Qed.

Lemma single_worker_step l s s' e :
  Inv 1 s -> step l s = Step s' e ->
  running (threads s) ++ handed e = completed e ++ running (threads s').
Proof.
  intros HI Hs. pose proof (step_Inv _ _ _ _ _ HI Hs) as HI'.
  destruct (handed_short e (step_events_short _ _ _ _ Hs)) as (Hh & Hor & Hlh & Hlc).
  apply in_order_of_one; try done.
  - rewrite Hh, <- app_assoc. by apply step_jobs in Hs.
  - rewrite <- executing_running. pose proof (executing_le (threads s)).
    rewrite (inv_threads _ _ HI) in *. lia.
  - rewrite <- executing_running. pose proof (executing_le (threads s')).
    rewrite (inv_threads _ _ HI') in *. lia.
Qed.

(** X11: a pool of one worker runs its jobs in the order in which
    [next_job] returned them, and, until the flag is raised, in the order
    in which they were submitted. *)
Theorem single_worker_runs_in_order ls s evs :
  run 1 ls = Some (s, evs) ->
  handed evs = completed evs ++ running (threads s) /\
  (bailout s = false -> completed evs `prefix_of` submitted evs).
Proof.
  intros Hrun.
  assert (handed evs = completed evs ++ running (threads s)) as Hh.
  { pose proof Hrun as Hex. apply exec_Execution in Hex.
    clear Hrun. induction Hex as [|ls s evs l s' e Hex IH Hs]; [done|].
    rewrite handed_app, completed_app, IH, <- !app_assoc. f_equal.
    apply (single_worker_step l s s' e); [by eapply Execution_Inv|done]. }
  split; [done|]. intros Hb.
  destruct (injected_bound 1 ls s evs Hrun) as [_ Hinj].
  rewrite (handed_no_injected _ (Hinj Hb)) in Hh.
  rewrite (hist_fifo _ _ (run_Hist _ _ _ _ Hrun)), Hh, <- app_assoc.
  by apply prefix_app_r.
Qed.

Lemma single_worker_runs_in_order_witness :
  run 1 sched_busy = Some (pool_busy, events_busy) /\
  handed events_busy = completed events_busy ++ running (threads pool_busy).
Proof.
  split; [reflexivity|].
  destruct (single_worker_runs_in_order sched_busy pool_busy events_busy)
    as [Hh _].
  - reflexivity.
  - exact Hh.
Defined.

(** ** The joins *)

Lemma joins_app evs1 evs2 : joins (evs1 ++ evs2) = joins evs1 ++ joins evs2.
Proof. apply omap_app. Qed.

Lemma step_joins l s s' e evs :
  CallInv s -> joins evs = seq 0 (joined_count s) ->
  step l s = Step s' e ->
  joins (evs ++ e) = seq 0 (joined_count s').
Proof.
  intros HC Hj H. rewrite joins_app, Hj. destruct (is_call l) eqn:Hl.
  - destruct l as [job pick|i|i| |b|]; try done; simpl in H.
    + unfold call, WaitAll in H. destruct (caller s) eqn:Hc; try done.
      destruct (0 <? jobs_left s)%Z; injection H as <- <-;
        unfold joined_count; simpl; rewrite Hc, app_nil_r; done.
    + unfold call, JoinAll, WaitAll in H. destruct (caller s) eqn:Hc; try done.
      destruct (finished s) eqn:Hf, b; simpl in H;
        try destruct (0 <? jobs_left s)%Z; injection H as <- <-;
        unfold joined_count; simpl; rewrite ?Hc, ?Hf, app_nil_r; done.
  - destruct (not_call_cases l Hl) as [Ho| ->].
    + destruct (other_step_frame _ _ _ _ Ho H) as (Hc & Hf & _ & He & Hlen).
      assert (joins e = []) as ->.
      { destruct (step_events_short _ _ _ _ H) as [->|[x ->]]; [done|].
        by destruct x. }
      unfold joined_count. by rewrite Hc, Hf, Hlen, app_nil_r.
    + simpl in H. unfold caller_step in H. destruct HC as [_ Cj Ci Cf].
      unfold joined_count in *.
      destruct (caller s) as [|fj| | |k] eqn:Hc; try done.
      * destruct (jobs_left s =? 0)%Z; [|done]. injection H as <- <-.
        simpl. rewrite app_nil_r. destruct fj; simpl; [done|].
        destruct (finished s) eqn:Hf; [|done].
        destruct (Cf eq_refl); done.
      * injection H as <- <-. by rewrite app_nil_r.
      * injection H as <- <-. by rewrite app_nil_r.
      * destruct (threads s !! k) as [w|] eqn:Hk.
        -- pose proof (lookup_lt_Some _ _ _ Hk) as Hlt.
           destruct w; try done; injection H as <- <-.
           ++ change (seq 0 k ++ [k] = seq 0 (S k)). by rewrite seq_S.
           ++ apply (Cj k Hlt) in Hk. lia.
        -- apply lookup_ge_None in Hk. injection H as <- <-. simpl.
           rewrite app_nil_r. f_equal. lia.
Qed.

Lemma run_joins n ls s evs :
  run n ls = Some (s, evs) -> joins evs = seq 0 (joined_count s).
Proof.
  intros H. apply exec_Execution in H.
  induction H as [|ls s evs l s' e Hex IH Hs]; [done|].
  eapply step_joins; eauto using Execution_CallInv.
Qed.

(** X16: threads are joined by [JoinAll] only, in the order of the array
    and each at most once, whatever calls are made; and the test
    [x.joinable()] of line 162 never fails. *)
Theorem threads_are_joined_once n ls s evs :
  run n ls = Some (s, evs) ->
  joins evs `prefix_of` seq 0 n /\
  NoDup (joins evs) /\
  (finished s = true -> joins evs = seq 0 n) /\
  (forall k, caller s = Joining k -> threads s !! k <> Some Joined).
Proof.
  intros Hrun. pose proof (run_joins _ _ _ _ Hrun) as Hj.
  pose proof (run_CallInv _ _ _ _ Hrun) as HC.
  pose proof (inv_threads _ _ (run_Inv _ _ _ _ Hrun)) as Hn.
  pose proof (call_index _ HC) as Hi. rewrite Hn in Hi.
  split; [|split; [|split]].
  - rewrite Hj.
    assert (seq 0 n = seq 0 (joined_count s)
                      ++ seq (0 + joined_count s) (n - joined_count s)) as ->.
    { rewrite <- seq_app. f_equal. lia. }
    by apply prefix_app_r.
  - rewrite Hj. apply NoDup_ListNoDup, List.seq_NoDup.
  - intros Hf. rewrite Hj. f_equal. unfold joined_count.
    destruct (call_finished _ HC Hf) as [-> | ->]; by rewrite Hf.
  - intros k Hc Hk. pose proof (lookup_lt_Some _ _ _ Hk) as Hlt.
    apply (call_joined _ HC k Hlt) in Hk. unfold joined_count in Hk.
    rewrite Hc in Hk. lia.
Qed.

Lemma threads_are_joined_once_witness :
  run 1 sched_drop = Some (pool_dropped, events_dropped) /\
  joins events_dropped = seq 0 1.
Proof.
  split; [reflexivity|].
  destruct (threads_are_joined_once 1 sched_drop pool_dropped events_dropped)
    as (_ & _ & Hall & _).
  - reflexivity.
  - apply Hall. reflexivity.
Defined.
